(** * Quantickle, [utils/ioc_tools.py]: extraction of indicators of compromise

    A shallow embedding of [validate_iocs] and of what it relies on:
    [str.replace], [str.split], [str.lower], [int], and the four compiled
    patterns together with the part of Python's [re] they use ([finditer],
    [fullmatch], greedy bounded and unbounded repetition, alternation,
    [\b], one-character negative look-behind, negative look-ahead and
    [re.IGNORECASE]).

    Characters.  A Python [str] is a sequence of code points.  Texts are
    modelled here as sequences of the code points U+0000 to U+00FF, written
    with Rocq's eight-bit [ascii]; the character tables below ([\d], [\s],
    [\w], lower-casing) are Python's tables restricted to that range. *)

From Stdlib Require Import Ascii String ZArith NArith Bool.
From stdpp Require Import base list gmap sets strings.

Local Open Scope char_scope.
Local Open Scope list_scope.

(** ** Character tables (Python's, on U+0000..U+00FF) *)

Definition code (x : ascii) : N := N_of_ascii x.

Definition between (lo hi : N) (x : ascii) : bool :=
  ((lo <=? code x) && (code x <=? hi))%N.

(** [\d], that is [str.isdecimal]: only the ten ASCII digits in this range. *)
Definition is_digit (x : ascii) : bool := between 48 57 x.

(** [\s], that is [str.isspace]: TAB LF VT FF CR, the four separators
    U+001C..U+001F, SPACE, NEL (U+0085) and NBSP (U+00A0). *)
Definition is_space (x : ascii) : bool :=
  between 9 13 x || between 28 31 x
  || (code x =? 32)%N || (code x =? 133)%N || (code x =? 160)%N.

(** [\w], that is [str.isalnum] or the underscore.  Besides the ASCII
    letters and digits the range holds the letters U+00AA, U+00B5, U+00BA,
    U+00C0..U+00D6, U+00D8..U+00F6, U+00F8..U+00FF, the superscript digits
    U+00B2, U+00B3, U+00B9 and the fractions U+00BC..U+00BE. *)
Definition is_word (x : ascii) : bool :=
  between 48 57 x || between 65 90 x || (code x =? 95)%N || between 97 122 x
  || (code x =? 170)%N || (code x =? 178)%N || (code x =? 179)%N
  || (code x =? 181)%N || (code x =? 185)%N || (code x =? 186)%N
  || between 188 190 x || between 192 214 x || between 216 246 x
  || between 248 255 x.

(** Lower-casing of one code point ([str.lower], and the case folding the
    [re] module uses under [IGNORECASE]): A..Z and the capital letters
    U+00C0..U+00DE other than the multiplication sign move up by 32. *)
Definition lower_char (x : ascii) : ascii :=
  if between 65 90 x || (between 192 222 x && negb (code x =? 215)%N)
  then ascii_of_N (code x + 32)
  else x.

(** [str.lower] *)
Definition lower (s : list ascii) : list ascii := map lower_char s.

(** ** [str.replace("[.]", ".")] *)

(** Occurrences are replaced from left to right, without overlap and in
    one pass: the result is not scanned again. *)
Fixpoint refang (s : list ascii) : list ascii :=
  match s with
  | [] => []
  | a :: t =>
      match t with
      | b :: c :: r =>
          if (a =? "[") && (b =? ".") && (c =? "]")
          then "." :: refang r
          else a :: refang t
      | _ => a :: refang t
      end
  end.

(** ** [str.split(sep)] for a one-character separator *)

Fixpoint split (sep : ascii) (s : list ascii) : list (list ascii) :=
  match s with
  | [] => [[]]
  | x :: r =>
      if x =? sep then [] :: split sep r
      else match split sep r with
           | p :: ps => (x :: p) :: ps
           | [] => [[x]]
           end
  end.

(** ** [int(s)] in base ten

    [int] strips white space on both sides, accepts one sign, then wants
    decimal digits, where single underscores may stand between two
    digits.  Anything else raises [ValueError], here [None].  The white
    space [int] strips is TAB LF VT FF CR, SPACE, NEL and NBSP: unlike
    [str.isspace] it does not take in the separators U+001C..U+001F. *)

Definition is_int_space (x : ascii) : bool :=
  between 9 13 x || (code x =? 32)%N || (code x =? 133)%N || (code x =? 160)%N.

Fixpoint lstrip (s : list ascii) : list ascii :=
  match s with
  | x :: r => if is_int_space x then lstrip r else s
  | [] => []
  end.

Definition strip (s : list ascii) : list ascii :=
  rev (lstrip (rev (lstrip s))).

Definition digit_value (x : ascii) : Z := Z.of_N (code x - 48).

Fixpoint int_digits (acc : Z) (after_digit : bool) (s : list ascii) : option Z :=
  match s with
  | [] => if after_digit then Some acc else None
  | x :: r =>
      if is_digit x then int_digits (10 * acc + digit_value x) true r
      else if (x =? "_") && after_digit then int_digits acc false r
      else None
  end.

Definition py_int (s : list ascii) : option Z :=
  match strip s with
  | "+" :: r => int_digits 0 false r
  | "-" :: r => Z.opp <$> int_digits 0 false r
  | r => int_digits 0 false r
  end.

(** ** The part of [re] the patterns use *)

(** One member of a bracketed set. *)
Inductive citem :=
| CChar (a : ascii)          (* a literal character *)
| CRange (lo hi : ascii)     (* lo-hi *)
| CDigit                     (* \d *)
| CSpace.                    (* \s *)

Inductive regex :=
| Any                                        (* .  (no DOTALL) *)
| Lit (a : ascii)                            (* a literal character *)
| Class (negated : bool) (items : list citem)  (* [...] and [^...] *)
| Cat (r1 r2 : regex)                        (* r1 r2 *)
| Alt (r1 r2 : regex)                        (* r1|r2 *)
| Rep (lo : nat) (hi : option nat) (r : regex) (* greedy r{lo,hi}; hi absent: r{lo,} *)
| WordB                                      (* \b *)
| NotBehind (negated : bool) (items : list citem) (* (?<![...]) *)
| NotAhead (r : regex).                      (* (?!r) *)

(** A compiled pattern: the expression and whether [re.IGNORECASE] is set. *)
Record pattern := Pattern { expr : regex; ignorecase : bool }.

(** A position in the subject: the characters before it, nearest first,
    and the characters from it on. *)
Record cursor := Cursor { behind : list ascii; ahead : list ascii }.

Definition chars_between (lo hi : ascii) : list ascii :=
  map (fun n => ascii_of_nat (nat_of_ascii lo + n))
      (seq 0 (S (nat_of_ascii hi) - nat_of_ascii lo)).

(** Under [IGNORECASE] a literal or a range is compared after lower-casing
    both sides; the categories are tested on the lower-cased character.
    This is the matching of [re] on U+0000..U+00FF.  Beyond that range, and
    so outside the texts modelled here, [re] makes four more characters
    match ASCII letters under [IGNORECASE]: U+0130 and U+0131 match [i],
    U+017F matches [s] and U+212A matches [k]. *)
Definition item_test (ic : bool) (it : citem) (x : ascii) : bool :=
  match it with
  | CChar a => if ic then lower_char a =? lower_char x else a =? x
  | CRange lo hi =>
      if ic then existsb (fun y => lower_char y =? lower_char x) (chars_between lo hi)
      else between (code lo) (code hi) x
  | CDigit => is_digit (if ic then lower_char x else x)
  | CSpace => is_space (if ic then lower_char x else x)
  end.

Definition class_test (ic negated : bool) (items : list citem) (x : ascii) : bool :=
  xorb negated (existsb (fun it => item_test ic it x) items).

Definition lit_test (ic : bool) (a x : ascii) : bool :=
  if ic then lower_char a =? lower_char x else a =? x.

(** [\b]: exactly one of the two neighbours is a word character. *)
Definition at_boundary (c : cursor) : bool :=
  let thatp := match behind c with x :: _ => is_word x | [] => false end in
  let thisp := match ahead c with x :: _ => is_word x | [] => false end in
  xorb thatp thisp.

(** Consume one character accepted by [ok]. *)
Definition eat (ok : ascii -> bool) (c : cursor) : list cursor :=
  match ahead c with
  | x :: r => if ok x then [Cursor (x :: behind c) r] else []
  | [] => []
  end.

(** Greedy repetition: one more round of [body] is tried before stopping,
    so longer matches come first.  A round that consumes nothing is not
    repeated (no expression repeated in this file can match the empty
    string).  [hi] bounds the number of rounds. *)
Fixpoint rep (body : cursor -> list cursor) (lo hi : nat) (c : cursor) : list cursor :=
  match hi with
  | 0 => match lo with 0 => [c] | _ => [] end
  | S hi' =>
      flat_map (fun c' =>
                  if (length (ahead c') <? length (ahead c))%nat
                  then rep body (pred lo) hi' c' else [])
               (body c)
      ++ match lo with 0 => [c] | _ => [] end
  end.

(** The backtracking matcher, as the list of the positions at which a
    match of [r] begun at [c] can end, in the order in which the engine
    tries them: the engine's answer is the head of the list.  An unbounded
    repetition is given as many rounds as there are characters left, which
    is all it can use, as every round consumes a character. *)
Fixpoint ends (ic : bool) (r : regex) (c : cursor) : list cursor :=
  match r with
  | Any => eat (fun x => negb (x =? "010")) c
  | Lit a => eat (lit_test ic a) c
  | Class negated items => eat (class_test ic negated items) c
  | Cat r1 r2 => flat_map (ends ic r2) (ends ic r1 c)
  | Alt r1 r2 => ends ic r1 c ++ ends ic r2 c
  | Rep lo hi r1 =>
      rep (ends ic r1) lo
          (match hi with Some h => h | None => length (ahead c) end) c
  | WordB => if at_boundary c then [c] else []
  | NotBehind negated items =>
      match behind c with
      | x :: _ => if class_test ic negated items x then [] else [c]
      | [] => [c]
      end
  | NotAhead r1 => match ends ic r1 c with [] => [c] | _ :: _ => [] end
  end.

(** [Pattern.match] at a position: the first end the engine finds. *)
Definition match_at (p : pattern) (c : cursor) : option cursor :=
  head (ends (ignorecase p) (expr p) c).

(** The text between two positions of one subject. *)
Definition matched (c c' : cursor) : list ascii :=
  take (length (ahead c) - length (ahead c')) (ahead c).

(** [Pattern.finditer], as the list of [match.group(0)]: the subject is
    scanned from left to right, a match is looked for at every position
    that no earlier match covers, and the scan goes on where a match
    ended.  [skip] counts the characters of the last match still to be
    passed.  After an empty match the scan moves one character on. *)
Fixpoint scan (p : pattern) (skip : nat) (bh ah : list ascii) : list (list ascii) :=
  let next k := match ah with
                | x :: r => scan p k (x :: bh) r
                | [] => []
                end in
  match skip with
  | 0 =>
      match match_at p (Cursor bh ah) with
      | Some c' =>
          let m := matched (Cursor bh ah) c' in
          m :: next (pred (length m))
      | None => next 0
      end
  | S k => next k
  end.

Definition finditer (p : pattern) (s : list ascii) : list (list ascii) :=
  scan p 0 [] s.

(** [Pattern.fullmatch]: some way of matching from the start ends at the
    end of the subject. *)
Definition fullmatch (p : pattern) (s : list ascii) : bool :=
  existsb (fun c' => match ahead c' with [] => true | _ => false end)
          (ends (ignorecase p) (expr p) (Cursor [] s)).

(** ** The four patterns *)

Definition cat (rs : list regex) (last : regex) : regex := foldr Cat last rs.

(** [\b(?:\d{1,3}\.){3}\d{1,3}\b] *)
Definition _IP_PATTERN : pattern :=
  Pattern
    (cat [WordB;
          Rep 3 (Some 3) (Cat (Rep 1 (Some 3) (Class false [CDigit])) (Lit "."));
          Rep 1 (Some 3) (Class false [CDigit])]
         WordB)
    false.

Definition label_chars : list citem := [CRange "a" "z"; CRange "0" "9"; CChar "-"].

(** [(?<![a-z0-9-])(?:[a-z0-9-]+\.)+[a-z]{2,}(?![a-z0-9-])], IGNORECASE *)
Definition _DOMAIN_PATTERN : pattern :=
  Pattern
    (cat [NotBehind false label_chars;
          Rep 1 None (Cat (Rep 1 None (Class false label_chars)) (Lit "."));
          Rep 2 None (Class false [CRange "a" "z"])]
         (NotAhead (Class false label_chars)))
    true.

Definition hex_chars : list citem := [CRange "a" "f"; CRange "0" "9"].

(** [\b(?:[a-f0-9]{32}|[a-f0-9]{40}|[a-f0-9]{64})\b], IGNORECASE *)
Definition _HASH_PATTERN : pattern :=
  Pattern
    (cat [WordB;
          Alt (Rep 32 (Some 32) (Class false hex_chars))
              (Alt (Rep 40 (Some 40) (Class false hex_chars))
                   (Rep 64 (Some 64) (Class false hex_chars)))]
         WordB)
    true.

(** [https?://[^\s/$.?#].[^\s]*], IGNORECASE *)
Definition _URL_PATTERN : pattern :=
  Pattern
    (cat [Lit "h"; Lit "t"; Lit "t"; Lit "p"; Rep 0 (Some 1) (Lit "s");
          Lit ":"; Lit "/"; Lit "/";
          Class true [CSpace; CChar "/"; CChar "$"; CChar "."; CChar "?"; CChar "#"];
          Any]
         (Rep 0 None (Class true [CSpace])))
    true.

(** ** The data model *)

Inductive IOCType := IP | DOMAIN | HASH | URL.

Record IOC := mkIOC { type : IOCType; value : string }.

Global Instance IOCType_eq_dec : EqDecision IOCType.
Proof. solve_decision. Defined.

Global Instance IOCType_countable : Countable IOCType.
Proof.
  refine (inj_countable'
            (fun t => match t with IP => 0 | DOMAIN => 1 | HASH => 2 | URL => 3 end)
            (fun n => match n with 0 => IP | 1 => DOMAIN | 2 => HASH | _ => URL end) _).
  by intros [].
Defined.

Global Instance IOC_eq_dec : EqDecision IOC.
Proof. solve_decision. Defined.

Global Instance IOC_countable : Countable IOC.
Proof.
  refine (inj_countable' (fun i => (type i, value i))
                         (fun '(t, v) => mkIOC t v) _).
  by intros [].
Defined.

(** A [str] as its list of characters, and back. *)
Definition chars (s : string) : list ascii := list_ascii_of_string s.

Definition text_of (l : list ascii) : string := string_of_list_ascii l.

(** ** [_validate_ip] *)

(** The loop over the parts: a part on which [int] raises [ValueError]
    ([except ValueError: return False]) or whose value lies outside 0..255
    ends it with [False].  (The interpreter's limit on the number of digits
    [int] accepts is not modelled; a part of a candidate has at most three.) *)
Fixpoint octets_in_range (parts : list (list ascii)) : bool :=
  match parts with
  | [] => true
  | part :: rest =>
      match py_int part with
      | None => false
      | Some num =>
          if ((num <? 0) || (255 <? num))%Z then false
          else octets_in_range rest
      end
  end.

(** [parts = ip.split("."); if len(parts) != 4: return False; for ...] *)
Definition _validate_ip (ip : list ascii) : bool :=
  let parts := split "." ip in
  if negb (length parts =? 4)%nat then false
  else octets_in_range parts.

(** ** [validate_iocs] *)

(** The bodies of the four [for] loops: each takes the set built so far
    and one [match.group(0)], and gives the set after [results.add]. *)

(** [if _validate_ip(value): results.add(IOC(IOCType.IP, value))] *)
Definition add_ip (results : gset IOC) (value : list ascii) : gset IOC :=
  if _validate_ip value then {[mkIOC IP (text_of value)]} ∪ results
  else results.

(** [value = match.group(0).lower(); if _IP_PATTERN.fullmatch(value):
    continue; results.add(IOC(IOCType.DOMAIN, value))] *)
Definition add_domain (results : gset IOC) (m : list ascii) : gset IOC :=
  let value := lower m in
  if fullmatch _IP_PATTERN value then results
  else {[mkIOC DOMAIN (text_of value)]} ∪ results.

(** [results.add(IOC(t, match.group(0)))], for HASH and for URL *)
Definition add_as (t : IOCType) (results : gset IOC) (m : list ascii) : gset IOC :=
  {[mkIOC t (text_of m)]} ∪ results.

(** [if not text: return results]: the empty string is the one string that
    is false.  Then the text is refanged once and the four loops run over
    the refanged text, in the order IP, DOMAIN, HASH, URL. *)
Definition validate_iocs (text : string) : gset IOC :=
  let results : gset IOC := ∅ in
  match text with
  | EmptyString => results
  | _ =>
      let text := refang (chars text) in
      let results := foldl add_ip results (finditer _IP_PATTERN text) in
      let results := foldl add_domain results (finditer _DOMAIN_PATTERN text) in
      let results := foldl (add_as HASH) results (finditer _HASH_PATTERN text) in
      let results := foldl (add_as URL) results (finditer _URL_PATTERN text) in
      results
  end.

(** ** The calls, with what they can raise *)

(** [text: str] is an annotation, not a check: the argument may be any
    object.  Three kinds stand for all of them here: a [str], [None], and
    an [int], which like most objects that are not strings has no method
    [replace]. *)
Inductive object := PyStr (s : string) | PyNone | PyInt (n : Z).

Inductive exception := ValueError | AttributeError.

(** What a call does: it returns a value, or it raises. *)
Inductive outcome (A : Type) : Type :=
| Returns (a : A)
| Raises (e : exception).

Arguments Returns {A} a.
Arguments Raises {A} e.

Definition bind {A B : Type} (m : outcome A) (k : A -> outcome B) : outcome B :=
  match m with
  | Returns a => k a
  | Raises e => Raises e
  end.

(** The truth value that [not text] negates. *)
Definition truth (o : object) : bool :=
  match o with
  | PyStr EmptyString => false
  | PyStr (String _ _) => true
  | PyNone => false
  | PyInt n => negb (n =? 0)%Z
  end.

(** [int(part)] raises [ValueError] on what it cannot read. *)
Definition int_call (part : list ascii) : outcome Z :=
  match py_int part with
  | Some num => Returns num
  | None => Raises ValueError
  end.

(** The loop of [_validate_ip] with its [try] and its [except ValueError:
    return False]; any other exception would go on to the caller. *)
Fixpoint octets_loop (parts : list (list ascii)) : outcome bool :=
  match parts with
  | [] => Returns true
  | part :: rest =>
      match int_call part with
      | Returns num =>
          if ((num <? 0) || (255 <? num))%Z then Returns false
          else octets_loop rest
      | Raises ValueError => Returns false
      | Raises e => Raises e
      end
  end.

Definition _validate_ip_call (ip : list ascii) : outcome bool :=
  let parts := split "." ip in
  if negb (length parts =? 4)%nat then Returns false
  else octets_loop parts.

(** [text.replace("[.]", ".")]: a method of [str]. *)
Definition replace_call (text : object) : outcome (list ascii) :=
  match text with
  | PyStr s => Returns (refang (chars s))
  | PyNone => Raises AttributeError
  | PyInt _ => Raises AttributeError
  end.

(** A [for] loop whose body may raise: the first exception ends it. *)
Fixpoint for_each {A S : Type} (body : S -> A -> outcome S) (items : list A) (s : S)
  : outcome S :=
  match items with
  | [] => Returns s
  | x :: rest => bind (body s x) (for_each body rest)
  end.

(** [if _validate_ip(value): results.add(IOC(IOCType.IP, value))] *)
Definition add_ip_call (results : gset IOC) (value : list ascii) : outcome (gset IOC) :=
  bind (_validate_ip_call value) (fun valid =>
  Returns (if valid then {[mkIOC IP (text_of value)]} ∪ results else results)).

(** [validate_iocs] called on any object.  Nothing in the three other
    loops can raise: their bodies are those of [validate_iocs]. *)
Definition validate_iocs_call (text : object) : outcome (gset IOC) :=
  let results : gset IOC := ∅ in
  if negb (truth text) then Returns results
  else
    bind (replace_call text) (fun text =>
    bind (for_each add_ip_call (finditer _IP_PATTERN text) results) (fun results =>
    let results := foldl add_domain results (finditer _DOMAIN_PATTERN text) in
    let results := foldl (add_as HASH) results (finditer _HASH_PATTERN text) in
    let results := foldl (add_as URL) results (finditer _URL_PATTERN text) in
    Returns results)).

(** ** [_main] *)

(** The values of the [IOCType] members. *)
Definition IOCType_value (t : IOCType) : string :=
  match t with
  | IP => "ip"
  | DOMAIN => "domain"
  | HASH => "hash"
  | URL => "url"
  end.

(** The part of [json.dumps] that [_main] uses: strings, lists and dicts
    with string keys, with the default separators and [ensure_ascii]. *)
Local Unset Elimination Schemes.

Inductive json :=
| JStr (s : list ascii)
| JList (items : list json)
| JDict (members : list (list ascii * json)).

Local Set Elimination Schemes.

Definition quote : ascii := "034".
Definition backslash : ascii := "092".

Definition hex_digit (n : N) : ascii :=
  if (n <? 10)%N then ascii_of_N (48 + n) else ascii_of_N (87 + n).

(** One character of a string: the quote and the backslash are escaped,
    the other characters from SPACE to [~] stand for themselves, five
    control characters have a short escape, and every other character is
    written [\u00xx]. *)
Definition json_escape (x : ascii) : list ascii :=
  if x =? quote then [backslash; quote]
  else if x =? backslash then [backslash; backslash]
  else if between 32 126 x then [x]
  else if x =? "010" then [backslash; "n"]
  else if x =? "013" then [backslash; "r"]
  else if x =? "009" then [backslash; "t"]
  else if x =? "008" then [backslash; "b"]
  else if x =? "012" then [backslash; "f"]
  else [backslash; "u"; "0"; "0";
        hex_digit (code x / 16); hex_digit (code x mod 16)].

Definition json_string (s : list ascii) : list ascii :=
  quote :: flat_map json_escape s ++ [quote].

(** [sep.join(parts)] *)
Fixpoint join (sep : list ascii) (parts : list (list ascii)) : list ascii :=
  match parts with
  | [] => []
  | [x] => x
  | x :: rest => x ++ sep ++ join sep rest
  end.

Fixpoint json_dumps (j : json) : list ascii :=
  match j with
  | JStr s => json_string s
  | JList items => "[" :: join (chars ", ") (map json_dumps items) ++ ["]"]
  | JDict members =>
      "{" :: join (chars ", ")
               (map (fun kv => json_string (fst kv) ++ chars ": " ++ json_dumps (snd kv))
                    members)
          ++ ["}"]
  end.

(** What [_main] reads and writes: the text waiting on standard input and
    the text written to standard output so far. *)
Record world := World { stdin : string; stdout : list ascii }.

(** [sys.stdin.read()]: all of standard input, which is then at its end. *)
Definition sys_stdin_read (w : world) : string * world :=
  (stdin w, World EmptyString (stdout w)).

(** [print(line)] *)
Definition print (line : list ascii) (w : world) : world :=
  World (stdin w) (stdout w ++ line ++ ["010"]).

(** [argv[1] if len(argv) > 1 else sys.stdin.read()] *)
Definition argument_or_stdin (argv : list string) (w : world) : string * world :=
  match argv with
  | _ :: arg :: _ => (arg, w)
  | _ => sys_stdin_read w
  end.

(** [{"type": i.type.value, "value": i.value}] *)
Definition ioc_dict (i : IOC) : json :=
  JDict [(chars "type", JStr (chars (IOCType_value (type i))));
         (chars "value", JStr (chars (value i)))].

(** [_main] returns the exit status and leaves the world changed.  The
    order in which [for i in iocs] goes through the set is not fixed by
    the language: it is the parameter [iteration]. *)
Definition _main (iteration : gset IOC -> list IOC) (argv : list string) (w : world)
  : Z * world :=
  let '(text, w) := argument_or_stdin argv w in
  let iocs := validate_iocs text in
  let w := print (json_dumps (JList (map ioc_dict (iteration iocs)))) w in
  (0%Z, w).

(** * Vocabulary of the statements *)

(** ** What the bracketed sets of the patterns accept *)

(** [[a-z]] under IGNORECASE: the 52 ASCII letters. *)
Definition is_alpha (x : ascii) : bool := between 65 90 x || between 97 122 x.

(** [[a-f0-9]] under IGNORECASE *)
Definition is_hex (x : ascii) : bool :=
  between 48 57 x || between 65 70 x || between 97 102 x.

(** [[a-z0-9-]] under IGNORECASE *)
Definition is_label (x : ascii) : bool := is_alpha x || is_digit x || (x =? "-").

(** [[^\s/$.?#]] *)
Definition is_url_head (x : ascii) : bool :=
  negb (is_space x || (x =? "/") || (x =? "$") || (x =? ".") || (x =? "?") || (x =? "#")).

(** ** Positions and rounds of a repetition *)

(** [reaches c m c']: [c'] is [c] moved forward over the characters [m]. *)
Definition reaches (c : cursor) (m : list ascii) (c' : cursor) : Prop :=
  ahead c = m ++ ahead c' /\ behind c' = rev m ++ behind c.

(** The position after the first [n] characters. *)
Definition forward (n : nat) (c : cursor) : cursor :=
  Cursor (rev (take n (ahead c)) ++ behind c) (drop n (ahead c)).

(** [chain body k c c']: [k] rounds of [body], each consuming something,
    lead from [c] to [c']. *)
Inductive chain (body : cursor -> list cursor) : nat -> cursor -> cursor -> Prop :=
| chain_stop c : chain body 0 c c
| chain_round k c c1 c' :
    In c1 (body c) ->
    length (ahead c1) < length (ahead c) ->
    chain body k c1 c' ->
    chain body (S k) c c'.

(** ** Matches found while scanning *)

(** [found_at p bh ah v]: at the position with [bh] behind and [ah] ahead
    the engine finds a match of [p], and the matched text is [v]. *)
Definition found_at (p : pattern) (bh ah v : list ascii) : Prop :=
  exists c', match_at p (Cursor bh ah) = Some c' /\ matched (Cursor bh ah) c' = v.

(** The scan after the current position. *)
Definition scan_next (p : pattern) (k : nat) (bh ah : list ascii) : list (list ascii) :=
  match ah with
  | x :: r => scan p k (x :: bh) r
  | [] => []
  end.

(** ** The four passes *)

(** The four passes over an already refanged text. *)
Definition passes (t : list ascii) : gset IOC :=
  foldl (add_as URL)
    (foldl (add_as HASH)
       (foldl add_domain
          (foldl add_ip ∅ (finditer _IP_PATTERN t))
          (finditer _DOMAIN_PATTERN t))
       (finditer _HASH_PATTERN t))
    (finditer _URL_PATTERN t).

(** ** Dotted quads and octets *)

(** One to three decimal digits. *)
Definition digits13 (m : list ascii) : Prop :=
  1 <= length m <= 3 /\ forallb is_digit m = true.

(** The shape [d{1,3}.d{1,3}.d{1,3}.d{1,3}]. *)
Definition dotted_quad (v : list ascii) : Prop :=
  exists a b c d,
    v = a ++ "." :: b ++ "." :: c ++ "." :: d
    /\ digits13 a /\ digits13 b /\ digits13 c /\ digits13 d.

(** The value of a string of decimal digits. *)
Definition decimal (m : list ascii) : Z :=
  fold_left (fun acc x => 10 * acc + digit_value x)%Z m 0%Z.

(** What the specification asks of a candidate: splitting on the dot gives
    exactly four parts, and each is read by [int] as an integer from 0 to
    255. *)
Definition octet (part : list ascii) : Prop :=
  exists n : Z, py_int part = Some n /\ (0 <= n <= 255)%Z.

Definition four_octets (ip : list ascii) : Prop :=
  exists a b c d, split "." ip = [a; b; c; d]
                  /\ octet a /\ octet b /\ octet c /\ octet d.

(** ** Domain matches *)

(** What is needed of a domain match: it ends in two or more letters. *)
Definition domain_shape (v : list ascii) : Prop :=
  exists labels tld,
    v = labels ++ tld /\ 2 <= length tld /\ forallb is_alpha tld = true.

(** [validate_iocs] without the test that skips a domain candidate the IP
    pattern fully matches. *)
Definition add_domain_unfiltered (results : gset IOC) (m : list ascii) : gset IOC :=
  let value := lower m in
  {[mkIOC DOMAIN (text_of value)]} ∪ results.

Definition validate_iocs_unfiltered (text : string) : gset IOC :=
  let results : gset IOC := ∅ in
  match text with
  | EmptyString => results
  | _ =>
      let text := refang (chars text) in
      let results := foldl add_ip results (finditer _IP_PATTERN text) in
      let results := foldl add_domain_unfiltered results (finditer _DOMAIN_PATTERN text) in
      let results := foldl (add_as HASH) results (finditer _HASH_PATTERN text) in
      let results := foldl (add_as URL) results (finditer _URL_PATTERN text) in
      results
  end.

(** ** Runs of hexadecimal digits *)

(** One alternative of the hash pattern followed by the closing [\b]. *)
Definition hit (n : nat) (c : cursor) : list cursor :=
  if (n <=? length (ahead c))%nat && forallb is_hex (take n (ahead c))
     && at_boundary (forward n c)
  then [forward n c] else [].

(** Is the character just before, or just after, a position a word
    character?  At either end of the text there is none. *)
Definition word_behind (bh : list ascii) : bool :=
  match bh with x :: _ => is_word x | [] => false end.

Definition word_after (post : list ascii) : bool :=
  match post with x :: _ => is_word x | [] => false end.

Definition word_before (pre : list ascii) : bool := word_behind (rev pre).

(** The lengths of an MD5, a SHA-1 and a SHA-256 digest in hexadecimal. *)
Definition hash_length (n : nat) : Prop := n = 32 \/ n = 40 \/ n = 64.

(** [hash_run t v]: [v] occurs in [t] as a run of hexadecimal digits of
    length 32, 40 or 64 with no word character (so no further hexadecimal
    digit either) directly before or after it. *)
Definition hash_run (t v : list ascii) : Prop :=
  exists pre post,
    t = pre ++ v ++ post
    /\ forallb is_hex v = true /\ hash_length (length v)
    /\ word_before pre = false /\ word_after post = false.

(** ** URLs *)

Definition LF : ascii := "010".

(** Equal up to case. *)
Definition same_letter (a x : ascii) : bool := lower_char a =? lower_char x.

Definition not_space (x : ascii) : bool := negb (is_space x).

(** [ci_prefix lits s]: what is left of [s] after [lits], read without
    regard to case. *)
Fixpoint ci_prefix (lits s : list ascii) : option (list ascii) :=
  match lits with
  | [] => Some s
  | a :: lits' =>
      match s with
      | x :: s' => if same_letter a x then ci_prefix lits' s' else None
      | [] => None
      end
  end.

(** The longest prefix of characters accepted by [f], and what follows it. *)
Fixpoint run (f : ascii -> bool) (s : list ascii) : list ascii :=
  match s with
  | x :: r => if f x then x :: run f r else []
  | [] => []
  end.

Fixpoint after_run (f : ascii -> bool) (s : list ascii) : list ascii :=
  match s with
  | x :: r => if f x then after_run f r else s
  | [] => []
  end.

(** What is left of [s] after the part of a URL that follows the scheme:
    one character that is neither white space nor one of [/ $ . ? #], one
    character that is not a line feed, and every character up to the next
    white space. *)
Definition url_body_rest (s : list ascii) : option (list ascii) :=
  match s with
  | x :: y :: t =>
      if is_url_head x && negb (y =? LF) then Some (after_run not_space t)
      else None
  | _ => None
  end.

(** What is left of [s] after the URL it begins with, if it begins with one. *)
Definition url_rest (s : list ascii) : option (list ascii) :=
  match ci_prefix (chars "https://") s with
  | Some r => url_body_rest r
  | None =>
      match ci_prefix (chars "http://") s with
      | Some r => url_body_rest r
      | None => None
      end
  end.

(** [http://] or [https://], in any case. *)
Definition url_scheme (scheme : list ascii) : Prop :=
  lower scheme = chars "http://" \/ lower scheme = chars "https://".

(** The end of the input, or white space. *)
Definition stops (post : list ascii) : Prop :=
  match post with
  | [] => True
  | z :: _ => is_space z = true
  end.

(** [url_shape v post]: [v], followed in the text by [post], is what the
    URL pattern matches. *)
Definition url_shape (v post : list ascii) : Prop :=
  exists scheme x y tail,
    v = scheme ++ x :: y :: tail
    /\ url_scheme scheme
    /\ is_url_head x = true
    /\ y <> LF
    /\ forallb not_space tail = true
    /\ stops post.

(** A run of literal characters in front of [R]. *)
Definition lits (l : list ascii) (R : regex) : regex :=
  foldr (fun a r => Cat (Lit a) r) R l.

(** The URL pattern after [https?://]. *)
Definition url_body : regex :=
  Cat (Class true [CSpace; CChar "/"; CChar "$"; CChar "."; CChar "?"; CChar "#"])
      (Cat Any (Rep 0 None (Class true [CSpace]))).

(** ** The texts of the scenarios, refanging twice, case *)

(** The inputs of [test_defanged_url] and of
    [test_multiple_domains_whitespace]. *)
Definition defanged_url : string := "http://malicious[.]example[.]com/path".

Definition four_domains : string := "alpha.com beta.org gamma.net delta.co".

(** A text with every ["[.]"] replaced by ["."], as a string. *)
Definition refanged (text : string) : string := text_of (refang (chars text)).

(** Does [s] contain the three characters [[.]] in a row? *)
Fixpoint has_bracketed_dot (s : list ascii) : bool :=
  match s with
  | [] => false
  | a :: t =>
      match t with
      | b :: c :: _ => ((a =? "[") && (b =? ".") && (c =? "]")) || has_bracketed_dot t
      | _ => has_bracketed_dot t
      end
  end.

(** [str.lower] on strings. *)
Definition str_lower (s : string) : string := text_of (lower (chars s)).

(** [v] is a piece of [t], character for character. *)
Definition occurs_in (t v : list ascii) : Prop := exists pre post, t = pre ++ v ++ post.

(** A text with a domain, a URL and a hash in upper case. *)
Definition mixed_case : string :=
  "See Example.COM, HTTPS://Ex.Org/A and D41D8CD98F00B204E9800998ECF8427E".


(** ** What stands next to an IP match *)

(** Is the character just before a position a dot?  Is the one just after
    a digit? *)
Definition dot_before (pre : list ascii) : bool :=
  match rev pre with x :: _ => x =? "." | [] => false end.

Definition digit_after (r : list ascii) : bool :=
  match r with x :: _ => is_digit x | [] => false end.

(** ** The make-up of a domain match *)

(** Is the character just before, or just after, a position one of
    [[a-z0-9-]], in either case? *)
Definition label_behind (bh : list ascii) : bool :=
  match bh with x :: _ => is_label x | [] => false end.

Definition label_before (pre : list ascii) : bool := label_behind (rev pre).

Definition label_after (post : list ascii) : bool :=
  match post with x :: _ => is_label x | [] => false end.

(** One or more non-empty labels of letters, digits and hyphens, each
    followed by a dot, then two or more letters. *)
Definition domain_text (m : list ascii) : Prop :=
  exists labels tld,
    labels <> []
    /\ Forall (fun l => l <> [] /\ forallb is_label l = true) labels
    /\ 2 <= length tld /\ forallb is_alpha tld = true
    /\ m = concat (map (fun l => l ++ ["."]) labels) ++ tld.

(** ** Lower-casing the subject *)

Definition lower_cursor (c : cursor) : cursor :=
  Cursor (lower (behind c)) (lower (ahead c)).

(** An expression none of whose tests tells a character from its lower-case
    form. *)
Fixpoint case_blind (ic : bool) (r : regex) : Prop :=
  match r with
  | Any => True
  | Lit a => forall x, lit_test ic a (lower_char x) = lit_test ic a x
  | Class negated items =>
      forall x, class_test ic negated items (lower_char x) = class_test ic negated items x
  | Cat r1 r2 => case_blind ic r1 /\ case_blind ic r2
  | Alt r1 r2 => case_blind ic r1 /\ case_blind ic r2
  | Rep _ _ r1 => case_blind ic r1
  | WordB => True
  | NotBehind negated items =>
      forall x, class_test ic negated items (lower_char x) = class_test ic negated items x
  | NotAhead r1 => case_blind ic r1
  end.

(** ** Separators *)

(** No test of the expression accepts the character [sep], and [sep] is
    not a word character where the expression asks for a word boundary:
    no match holds [sep], and a [sep] next to a match counts as the edge of
    the text. *)
Fixpoint sep_bound (sep : ascii) (ic : bool) (r : regex) : bool :=
  match r with
  | Any => sep =? LF
  | Lit a => negb (lit_test ic a sep)
  | Class negated items => negb (class_test ic negated items sep)
  | Cat r1 r2 => sep_bound sep ic r1 && sep_bound sep ic r2
  | Alt r1 r2 => sep_bound sep ic r1 && sep_bound sep ic r2
  | Rep _ _ r1 => sep_bound sep ic r1
  | WordB => negb (is_word sep)
  | NotBehind negated items => negb (class_test ic negated items sep)
  | NotAhead r1 => sep_bound sep ic r1
  end.

(** A stretch of text that is empty or begins with [sep]. *)
Definition edge (sep : ascii) (l : list ascii) : Prop :=
  l = [] \/ exists r, l = sep :: r.

(** The same position in a longer subject: [pre] further back, [post]
    further on. *)
Definition widen (pre post : list ascii) (c : cursor) : cursor :=
  Cursor (behind c ++ pre) (ahead c ++ post).

(** A character that is no word character and none of [-], [.], [[] and
    []]: white space, commas, quotes, parentheses and the like. *)
Definition separator (x : ascii) : bool :=
  negb (is_word x || (x =? "-") || (x =? ".") || (x =? "[") || (x =? "]")).

(** ** The printed line *)

(** The characters from SPACE to [~]. *)
Definition printable (x : ascii) : bool := between 32 126 x.



(** The line [_main] prints for the IOCs in the given order. *)
Definition printed (iocs : list IOC) : list ascii :=
  json_dumps (JList (map ioc_dict iocs)).


(** ** Where the scan looks *)

(** What the scan reports at a position: the match the engine finds there,
    with the text before it, when no earlier match is still being passed. *)
Definition emitted (p : pattern) (skip : nat) (bh ah : list ascii)
  : list (list ascii * list ascii) :=
  match skip with
  | 0 =>
      match match_at p (Cursor bh ah) with
      | Some c' => [(rev bh, matched (Cursor bh ah) c')]
      | None => []
      end
  | S _ => []
  end.

(** The count of characters still to be passed with which the scan goes on
    to the next position. *)
Definition skip_after (p : pattern) (skip : nat) (bh ah : list ascii) : nat :=
  match skip with
  | 0 =>
      match match_at p (Cursor bh ah) with
      | Some c' => pred (length (matched (Cursor bh ah) c'))
      | None => 0
      end
  | S k => k
  end.

(** The matches of the scan, each with the text before it. *)
Fixpoint spans (p : pattern) (skip : nat) (bh ah : list ascii)
  : list (list ascii * list ascii) :=
  emitted p skip bh ah
  ++ match ah with
     | x :: r => spans p (skip_after p skip bh ah) (x :: bh) r
     | [] => []
     end.

(** Whether the scan looks for a match at the [n]th position from here. *)
Fixpoint looked_at (p : pattern) (skip : nat) (bh ah : list ascii) (n : nat)
  {struct n} : bool :=
  match n with
  | 0 => (skip =? 0)%nat
  | S n' =>
      match ah with
      | x :: r => looked_at p (skip_after p skip bh ah) (x :: bh) r n'
      | [] => false
      end
  end.

(** [inside pre span]: the place after [pre] lies within the match of
    [span], after its first character and before its end. *)
Definition inside (pre : list ascii) (span : list ascii * list ascii) : bool :=
  (length (fst span) <? length pre)%nat
  && (length pre <? length (fst span) + length (snd span))%nat.

(** [covered p s pre]: the place after [pre] in [s] lies within one of the
    matches that [finditer] reports. *)
Definition covered (p : pattern) (s pre : list ascii) : bool :=
  existsb (inside pre) (spans p 0 [] s).

(** * Properties *)

(** ** Characters *)

Ltac each_char x := destruct x as [[] [] [] [] [] [] [] []].

Lemma lower_char_idem x : lower_char (lower_char x) = lower_char x.
Proof. each_char x; reflexivity. Qed.

Lemma lower_idem s : lower (lower s) = lower s.
Proof.
  unfold lower. rewrite map_map. apply map_ext. intros x. apply lower_char_idem.
Qed.

Lemma is_digit_word x : is_digit x = true -> is_word x = true.
Proof. each_char x; vm_compute; congruence. Qed.

Lemma class_digit x : class_test false false [CDigit] x = is_digit x.
Proof. each_char x; reflexivity. Qed.

Lemma class_alpha x : class_test true false [CRange "a" "z"] x = is_alpha x.
Proof. each_char x; vm_compute; reflexivity. Qed.

Lemma class_label x : class_test true false label_chars x = is_label x.
Proof. each_char x; vm_compute; reflexivity. Qed.

Lemma class_hex x : class_test true false hex_chars x = is_hex x.
Proof. each_char x; vm_compute; reflexivity. Qed.

Lemma class_url_head x :
  class_test true true [CSpace; CChar "/"; CChar "$"; CChar "."; CChar "?"; CChar "#"] x
  = is_url_head x.
Proof. each_char x; vm_compute; reflexivity. Qed.

Lemma class_not_space x : class_test true true [CSpace] x = negb (is_space x).
Proof. each_char x; vm_compute; reflexivity. Qed.

Lemma is_hex_word x : is_hex x = true -> is_word x = true.
Proof. each_char x; vm_compute; congruence. Qed.

Lemma is_alpha_lower_not_digit x : is_alpha x = true -> is_digit (lower_char x) = false.
Proof. each_char x; vm_compute; congruence. Qed.

(** ** Positions *)

Lemma reaches_refl c : reaches c [] c.
Proof. split; reflexivity. Qed.

Lemma reaches_trans c m c1 m' c2 :
  reaches c m c1 -> reaches c1 m' c2 -> reaches c (m ++ m') c2.
Proof.
  intros [A1 B1] [A2 B2]. split.
  - rewrite A1, A2. apply app_assoc.
  - rewrite B2, B1, rev_app_distr. apply app_assoc.
Qed.

Lemma reaches_length c m c' :
  reaches c m c' -> length (ahead c) = length m + length (ahead c').
Proof. intros [A _]. rewrite A. apply length_app. Qed.

Lemma reaches_matched c m c' : reaches c m c' -> matched c c' = m.
Proof.
  intros H. unfold matched. rewrite (reaches_length _ _ _ H).
  destruct H as [A _]. rewrite A.
  replace (length m + length (ahead c') - length (ahead c')) with (length m) by lia.
  apply take_app_length.
Qed.

Lemma reaches_nil c c' : reaches c [] c' -> c' = c.
Proof.
  destruct c, c'. intros [A B]. simpl in *. congruence.
Qed.

Lemma reaches_inj c m c1 c2 : reaches c m c1 -> reaches c m c2 -> c1 = c2.
Proof.
  destruct c1, c2. intros [A1 B1] [A2 B2]. simpl in *.
  rewrite A1 in A2. apply app_inv_head in A2. congruence.
Qed.

Lemma forward_reaches n c : reaches c (take n (ahead c)) (forward n c).
Proof. split; simpl; [symmetry; apply take_drop | reflexivity]. Qed.

Lemma reaches_forward c m c' : reaches c m c' -> c' = forward (length m) c.
Proof.
  intros H. eapply reaches_inj; [exact H|].
  pose proof (forward_reaches (length m) c) as F.
  destruct H as [A _]. rewrite A in F at 1. rewrite take_app_length in F. exact F.
Qed.

(** ** One character *)

Lemma eat_spec ok c c' :
  In c' (eat ok c) <-> exists x, ok x = true /\ reaches c [x] c'.
Proof.
  unfold eat. destruct c as [bh ah], c' as [bh' ah']; simpl. split.
  - destruct ah as [|x r]; [intros []|].
    destruct (ok x) eqn:E; [|intros []].
    intros [H|[]]. inversion H; subst. exists x. split; [exact E|]. split; reflexivity.
  - intros (x & E & A & B). simpl in *. subst. rewrite E. left. reflexivity.
Qed.

Lemma eat_cons ok bh x r :
  eat ok (Cursor bh (x :: r)) = if ok x then [Cursor (x :: bh) r] else [].
Proof. reflexivity. Qed.

Lemma eat_nil ok bh : eat ok (Cursor bh []) = [].
Proof. reflexivity. Qed.

(** ** Repetition *)

Section Repetition.

Variable body : cursor -> list cursor.

Lemma rep_spec lo hi c c' :
  In c' (rep body lo hi c) <-> exists k, lo <= k <= hi /\ chain body k c c'.
Proof.
  revert lo c. induction hi as [|hi IH]; intros lo c; simpl.
  - destruct lo; simpl; split.
    + intros [<-|[]]. exists 0. split; [lia|constructor].
    + intros (k & Hk & Hc). assert (k = 0) by lia; subst.
      inversion Hc; subst. left; reflexivity.
    + intros [].
    + intros (k & Hk & _). lia.
  - rewrite in_app_iff, in_flat_map. split.
    + intros [(c1 & H1 & H2)|H].
      * destruct (Nat.ltb_spec (length (ahead c1)) (length (ahead c))) as [Hlt|]; [|destruct H2].
        apply IH in H2 as (k & Hk & Hc). exists (S k). split; [lia|].
        econstructor; eassumption.
      * destruct lo; [|destruct H]. destruct H as [<-|[]].
        exists 0. split; [lia|constructor].
    + intros (k & Hk & Hc). inversion Hc; subst.
      * right. assert (lo = 0) by lia; subst. left; reflexivity.
      * left. exists c1. split; [assumption|].
        destruct (Nat.ltb_spec (length (ahead c1)) (length (ahead c))); [|lia].
        apply IH. exists k0. split; [lia|assumption].
Qed.

Lemma chain_rounds k c c' :
  chain body k c c' -> k + length (ahead c') <= length (ahead c).
Proof. induction 1; lia. Qed.

(** More rounds than there are characters change nothing: the bound given
    to an unbounded repetition cuts nothing off. *)
Lemma rep_rounds_enough lo hi c :
  length (ahead c) <= hi -> rep body lo (S hi) c = rep body lo hi c.
Proof.
  revert lo c. induction hi as [|hi IH]; intros lo c Hlen.
  - simpl. replace (flat_map _ (body c)) with (@nil cursor); [reflexivity|].
    induction (body c) as [|c1 l IHl]; simpl; [reflexivity|].
    destruct (Nat.ltb_spec (length (ahead c1)) (length (ahead c))); [lia|].
    exact IHl.
  - change (rep body lo (S (S hi)) c) with
      (flat_map (fun c' => if (length (ahead c') <? length (ahead c))%nat
                           then rep body (pred lo) (S hi) c' else []) (body c)
       ++ match lo with 0 => [c] | _ => [] end).
    change (rep body lo (S hi) c) with
      (flat_map (fun c' => if (length (ahead c') <? length (ahead c))%nat
                           then rep body (pred lo) hi c' else []) (body c)
       ++ match lo with 0 => [c] | _ => [] end).
    f_equal. apply flat_map_ext. intros c1.
    destruct (Nat.ltb_spec (length (ahead c1)) (length (ahead c))); [|reflexivity].
    apply IH. lia.
Qed.

Lemma rep_rounds_any lo c n :
  length (ahead c) <= n -> rep body lo n c = rep body lo (length (ahead c)) c.
Proof.
  intros H. induction H as [|n H IH]; [reflexivity|].
  rewrite rep_rounds_enough by exact H. exact IH.
Qed.

Lemma chain_reaches :
  (forall c c', In c' (body c) -> exists m, reaches c m c') ->
  forall k c c', chain body k c c' -> exists m, reaches c m c'.
Proof.
  intros Hb k c c' H. induction H as [c|k c c1 c' H1 _ _ (m' & IH)].
  - exists []. apply reaches_refl.
  - destruct (Hb _ _ H1) as (m & Hm). exists (m ++ m').
    eapply reaches_trans; eassumption.
Qed.

End Repetition.

(** Every end the matcher lists lies ahead of the start, in the same subject. *)
Lemma ends_reaches ic r : forall c c', In c' (ends ic r c) -> exists m, reaches c m c'.
Proof.
  induction r as [|a|ng its|r1 IH1 r2 IH2|r1 IH1 r2 IH2|lo hi r1 IH1| |ng its|r1 IH1];
    intros c c'; simpl.
  - intros H. apply eat_spec in H as (x & _ & H). eauto.
  - intros H. apply eat_spec in H as (x & _ & H). eauto.
  - intros H. apply eat_spec in H as (x & _ & H). eauto.
  - rewrite in_flat_map. intros (c1 & H1 & H2).
    destruct (IH1 _ _ H1) as (m1 & R1), (IH2 _ _ H2) as (m2 & R2).
    exists (m1 ++ m2). eapply reaches_trans; eassumption.
  - rewrite in_app_iff. intros [H|H]; eauto.
  - intros H. apply rep_spec in H as (k & _ & H).
    eapply chain_reaches; eassumption.
  - destruct (at_boundary c); [|intros []]. intros [<-|[]].
    exists []. apply reaches_refl.
  - destruct (behind c) as [|x ?]; [|destruct (class_test _ _ _ _); [intros []|]];
      (intros [<-|[]]; exists []; apply reaches_refl).
  - destruct (ends ic r1 c); [|intros []]. intros [<-|[]].
    exists []. apply reaches_refl.
Qed.

(** Rounds of a one-character body. *)
Lemma chain_eat ok k c c' :
  chain (eat ok) k c c' <->
  exists m, length m = k /\ forallb ok m = true /\ reaches c m c'.
Proof.
  split.
  - induction 1 as [c|k c c1 c' H1 _ _ (m & L & F & R)].
    + exists []. split; [reflexivity|]. split; [reflexivity|apply reaches_refl].
    + apply eat_spec in H1 as (x & E & R1). exists (x :: m).
      split; [simpl; congruence|]. split; [simpl; rewrite E; exact F|].
      apply (reaches_trans _ [x] _ _ _ R1 R).
  - intros (m & L & F & R). revert k c L F R.
    induction m as [|x m IH]; intros k c L F R; simpl in *; subst k.
    + apply reaches_nil in R. subst. constructor.
    + apply andb_true_iff in F as [E F].
      destruct R as [A B].
      set (c1 := Cursor (x :: behind c) (m ++ ahead c')).
      assert (R1 : reaches c [x] c1) by (split; simpl; [exact A|reflexivity]).
      apply (chain_round _ _ _ c1).
      * apply eat_spec. eauto.
      * rewrite A. simpl. lia.
      * apply IH; [reflexivity|exact F|].
        split; simpl; [reflexivity|].
        rewrite B. simpl. rewrite <- app_assoc. reflexivity.
Qed.

(** ** Scanning *)

Section Scanning.

Variable p : pattern.

Lemma match_at_In c c' :
  match_at p c = Some c' -> In c' (ends (ignorecase p) (expr p) c).
Proof.
  unfold match_at. destruct (ends _ _ c); simpl; [discriminate|].
  intros [= ->]. left; reflexivity.
Qed.

Lemma found_at_reaches bh ah v :
  found_at p bh ah v ->
  exists c', match_at p (Cursor bh ah) = Some c' /\ reaches (Cursor bh ah) v c'.
Proof.
  intros (c' & M & V). exists c'. split; [exact M|].
  destruct (ends_reaches _ _ _ _ (match_at_In _ _ M)) as (m & R).
  rewrite (reaches_matched _ _ _ R) in V. subst. exact R.
Qed.

Lemma found_at_prefix bh ah v : found_at p bh ah v -> exists post, ah = v ++ post.
Proof.
  intros H. apply found_at_reaches in H as (c' & _ & A & _). eauto.
Qed.

Lemma scan_eq k bh ah :
  scan p k bh ah =
  match k with
  | 0 =>
      match match_at p (Cursor bh ah) with
      | Some c' =>
          matched (Cursor bh ah) c'
          :: scan_next p (pred (length (matched (Cursor bh ah) c'))) bh ah
      | None => scan_next p 0 bh ah
      end
  | S k' => scan_next p k' bh ah
  end.
Proof. destruct ah; reflexivity. Qed.

(** Every reported match is found by the engine at some position of the
    subject. *)
Lemma scan_sound v : forall ah k bh,
  In v (scan p k bh ah) ->
  exists pre rest, ah = pre ++ rest /\ found_at p (rev pre ++ bh) rest v.
Proof.
  assert (Hnext : forall x r bh k,
             (forall k bh, In v (scan p k bh r) ->
                exists pre rest, r = pre ++ rest /\ found_at p (rev pre ++ bh) rest v) ->
             In v (scan_next p k bh (x :: r)) ->
             exists pre rest, x :: r = pre ++ rest /\ found_at p (rev pre ++ bh) rest v).
  { intros x r bh k IH H. simpl in H.
    apply IH in H as (pre & rest & -> & F).
    exists (x :: pre), rest. split; [reflexivity|].
    simpl. rewrite <- app_assoc. exact F. }
  induction ah as [|x r IH]; intros k bh; rewrite scan_eq.
  - destruct k; simpl; [|intros []].
    destruct (match_at p (Cursor bh [])) as [c'|] eqn:M; [|intros []].
    intros [<-|[]]. exists [], []. split; [reflexivity|]. exists c'. auto.
  - destruct k; [|apply Hnext; exact IH].
    destruct (match_at p (Cursor bh (x :: r))) as [c'|] eqn:M; [|apply Hnext; exact IH].
    intros [<-|H]; [|eapply Hnext; [exact IH|exact H]].
    exists [], (x :: r). split; [reflexivity|]. exists c'. auto.
Qed.

Lemma finditer_sound s v :
  In v (finditer p s) ->
  exists pre post, s = pre ++ v ++ post /\ found_at p (rev pre) (v ++ post) v.
Proof.
  intros H. apply scan_sound in H as (pre & rest & -> & F).
  rewrite app_nil_r in F.
  destruct (found_at_prefix _ _ _ F) as (post & ->). eauto.
Qed.

(** A match the engine finds at a position is reported, provided no match
    found at an earlier position runs past that position. *)
Lemma scan_complete v rest : forall pre k bh,
  k <= length pre ->
  (forall p1 p2 w, pre = p1 ++ p2 -> p2 <> [] ->
     found_at p (rev p1 ++ bh) (p2 ++ rest) w -> length w <= length p2) ->
  found_at p (rev pre ++ bh) rest v ->
  In v (scan p k bh (pre ++ rest)).
Proof.
  induction pre as [|x pre IH]; intros k bh Hk Hbar F; rewrite scan_eq.
  - simpl in *. assert (k = 0) by lia. subst k.
    destruct F as (c' & -> & <-). left; reflexivity.
  - assert (Hbar' : forall p1 p2 w, pre = p1 ++ p2 -> p2 <> [] ->
              found_at p (rev p1 ++ x :: bh) (p2 ++ rest) w -> length w <= length p2).
    { intros p1 p2 w -> Hne Hw. apply (Hbar (x :: p1) p2 w); [reflexivity|exact Hne|].
      simpl. rewrite <- app_assoc. exact Hw. }
    assert (F' : found_at p (rev pre ++ x :: bh) rest v).
    { simpl in F. rewrite <- app_assoc in F. exact F. }
    simpl in Hk.
    destruct k as [|k].
    + destruct (match_at p (Cursor bh ((x :: pre) ++ rest))) as [c'|] eqn:M.
      * right. simpl. apply IH; [|exact Hbar'|exact F'].
        assert (length (matched (Cursor bh ((x :: pre) ++ rest)) c') <= length (x :: pre)).
        { apply (Hbar [] (x :: pre)); [reflexivity|discriminate|].
          exists c'. split; [exact M|reflexivity]. }
        simpl in *. lia.
      * simpl. apply IH; [lia|exact Hbar'|exact F'].
    + simpl. apply IH; [lia|exact Hbar'|exact F'].
Qed.

Lemma finditer_complete pre v post :
  (forall p1 p2 w, pre = p1 ++ p2 -> p2 <> [] ->
     found_at p (rev p1) (p2 ++ v ++ post) w -> length w <= length p2) ->
  found_at p (rev pre) (v ++ post) v ->
  In v (finditer p (pre ++ v ++ post)).
Proof.
  intros Hbar F. apply scan_complete; [lia| |rewrite app_nil_r; exact F].
  intros p1 p2 w E Hne Hw. rewrite app_nil_r in Hw. eauto.
Qed.

End Scanning.

(** ** The result set, element by element *)

Lemma text_of_inj a b : text_of a = text_of b -> a = b.
Proof.
  intros H. apply (f_equal list_ascii_of_string) in H.
  unfold text_of in H. now rewrite !list_ascii_of_string_of_list_ascii in H.
Qed.

Lemma chars_text_of l : chars (text_of l) = l.
Proof. apply list_ascii_of_string_of_list_ascii. Qed.

Lemma text_of_chars s : text_of (chars s) = s.
Proof. apply string_of_list_ascii_of_string. Qed.

Lemma elem_of_foldl_add_ip l : forall (R : gset IOC) i,
  i ∈ foldl add_ip R l <->
  i ∈ R \/ exists v, In v l /\ _validate_ip v = true /\ i = mkIOC IP (text_of v).
Proof.
  induction l as [|m l IH]; intros R i; simpl.
  - split; [auto|]. intros [H|(v & [] & _)]; exact H.
  - rewrite IH. unfold add_ip. split.
    + intros [H|(v & Hv & Hok & ->)].
      * destruct (_validate_ip m) eqn:E; [|auto].
        apply elem_of_union in H as [H|H]; [|auto].
        apply elem_of_singleton in H. right. exists m. auto.
      * right. exists v. auto.
    + intros [H|(v & [<-|Hv] & Hok & ->)].
      * left. destruct (_validate_ip m); [apply elem_of_union; auto|exact H].
      * left. rewrite Hok. apply elem_of_union. left. apply elem_of_singleton. reflexivity.
      * right. exists v. auto.
Qed.

Lemma elem_of_foldl_add_domain l : forall (R : gset IOC) i,
  i ∈ foldl add_domain R l <->
  i ∈ R \/ exists m, In m l /\ fullmatch _IP_PATTERN (lower m) = false
                     /\ i = mkIOC DOMAIN (text_of (lower m)).
Proof.
  induction l as [|m l IH]; intros R i; simpl.
  - split; [auto|]. intros [H|(v & [] & _)]; exact H.
  - rewrite IH. unfold add_domain. split.
    + intros [H|(v & Hv & Hok & ->)].
      * destruct (fullmatch _IP_PATTERN (lower m)) eqn:E; [auto|].
        apply elem_of_union in H as [H|H]; [|auto].
        apply elem_of_singleton in H. right. exists m. auto.
      * right. exists v. auto.
    + intros [H|(v & [<-|Hv] & Hok & ->)].
      * left. destruct (fullmatch _IP_PATTERN (lower m)); [exact H|apply elem_of_union; auto].
      * left. rewrite Hok. apply elem_of_union. left. apply elem_of_singleton. reflexivity.
      * right. exists v. auto.
Qed.

Lemma elem_of_foldl_add_as t l : forall (R : gset IOC) i,
  i ∈ foldl (add_as t) R l <->
  i ∈ R \/ exists m, In m l /\ i = mkIOC t (text_of m).
Proof.
  induction l as [|m l IH]; intros R i; simpl.
  - split; [auto|]. intros [H|(v & [] & _)]; exact H.
  - rewrite IH. unfold add_as. split.
    + intros [H|(v & Hv & ->)].
      * apply elem_of_union in H as [H|H]; [|auto].
        apply elem_of_singleton in H. right. exists m. auto.
      * right. exists v. auto.
    + intros [H|(v & [<-|Hv] & ->)].
      * left. apply elem_of_union; auto.
      * left. apply elem_of_union. left. apply elem_of_singleton. reflexivity.
      * right. exists v. auto.
Qed.

Lemma validate_iocs_passes text :
  validate_iocs text =
  match text with EmptyString => ∅ | _ => passes (refang (chars text)) end.
Proof. destruct text; reflexivity. Qed.

Lemma elem_of_passes t i :
  i ∈ passes t <->
  (exists v, In v (finditer _IP_PATTERN t) /\ _validate_ip v = true
             /\ i = mkIOC IP (text_of v))
  \/ (exists m, In m (finditer _DOMAIN_PATTERN t)
                /\ fullmatch _IP_PATTERN (lower m) = false
                /\ i = mkIOC DOMAIN (text_of (lower m)))
  \/ (exists m, In m (finditer _HASH_PATTERN t) /\ i = mkIOC HASH (text_of m))
  \/ (exists m, In m (finditer _URL_PATTERN t) /\ i = mkIOC URL (text_of m)).
Proof.
  unfold passes.
  rewrite elem_of_foldl_add_as, elem_of_foldl_add_as,
    elem_of_foldl_add_domain, elem_of_foldl_add_ip.
  rewrite elem_of_empty. tauto.
Qed.

(** The empty text aside, [validate_iocs] is the four passes over the
    refanged text. *)
Lemma validate_iocs_eq text : validate_iocs text = passes (refang (chars text)).
Proof.
  rewrite validate_iocs_passes. destruct text; reflexivity.
Qed.

Lemma elem_of_validate_iocs text i :
  i ∈ validate_iocs text <-> i ∈ passes (refang (chars text)).
Proof. rewrite validate_iocs_eq. reflexivity. Qed.

(** ** Membership in [ends], constructor by constructor *)

Lemma forallb_pointwise (f g : ascii -> bool) l :
  (forall x, f x = g x) -> forallb f l = forallb g l.
Proof. intros E. induction l as [|x l IH]; simpl; [reflexivity|]. now rewrite E, IH. Qed.

Lemma in_ends_cat ic r1 r2 c c' :
  In c' (ends ic (Cat r1 r2) c) <->
  exists c1, In c1 (ends ic r1 c) /\ In c' (ends ic r2 c1).
Proof. simpl. apply in_flat_map. Qed.

Lemma in_ends_alt ic r1 r2 c c' :
  In c' (ends ic (Alt r1 r2) c) <-> In c' (ends ic r1 c) \/ In c' (ends ic r2 c).
Proof. simpl. apply in_app_iff. Qed.

Lemma in_ends_wordb ic c c' :
  In c' (ends ic WordB c) <-> at_boundary c = true /\ c' = c.
Proof.
  simpl. destruct (at_boundary c); simpl; split.
  - intros [<-|[]]. auto.
  - intros [_ ->]. auto.
  - intros [].
  - intros [? _]. discriminate.
Qed.

Lemma in_ends_lit ic a c c' :
  In c' (ends ic (Lit a) c) <-> exists x, lit_test ic a x = true /\ reaches c [x] c'.
Proof. simpl. apply eat_spec. Qed.

Lemma in_ends_class_rep ic ng its lo hi c c' :
  In c' (ends ic (Rep lo (Some hi) (Class ng its)) c) <->
  exists m, lo <= length m <= hi
            /\ forallb (class_test ic ng its) m = true /\ reaches c m c'.
Proof.
  simpl. rewrite rep_spec. split.
  - intros (k & Hk & Hc). apply chain_eat in Hc as (m & L & F & R).
    exists m. subst. auto.
  - intros (m & L & F & R). exists (length m). split; [lia|].
    apply chain_eat. eauto.
Qed.

Lemma in_ends_class_rep_unbounded ic ng its lo c c' :
  In c' (ends ic (Rep lo None (Class ng its)) c) <->
  exists m, lo <= length m
            /\ forallb (class_test ic ng its) m = true /\ reaches c m c'.
Proof.
  simpl. rewrite rep_spec. split.
  - intros (k & Hk & Hc). apply chain_eat in Hc as (m & L & F & R).
    exists m. subst. split; [lia|auto].
  - intros (m & L & F & R). exists (length m).
    split; [pose proof (reaches_length _ _ _ R); lia|].
    apply chain_eat. eauto.
Qed.

Lemma in_ends_not_ahead ic r c c' :
  In c' (ends ic (NotAhead r) c) <-> ends ic r c = [] /\ c' = c.
Proof.
  simpl. destruct (ends ic r c); simpl; split.
  - intros [<-|[]]. auto.
  - intros [_ ->]. auto.
  - intros [].
  - intros [? _]. discriminate.
Qed.

Lemma in_ends_not_behind ic ng its c c' :
  In c' (ends ic (NotBehind ng its) c) ->  c' = c.
Proof.
  simpl. destruct (behind c); [|destruct (class_test _ _ _ _)]; simpl;
    intuition congruence.
Qed.

Lemma chain_three body c c' :
  chain body 3 c c' ->
  exists c1 c2, In c1 (body c) /\ In c2 (body c1) /\ In c' (body c2).
Proof.
  intros H. inversion H as [|? ? c1 ? H1 _ H']; subst.
  inversion H' as [|? ? c2 ? H2 _ H'']; subst.
  inversion H'' as [|? ? c3 ? H3 _ H''']; subst.
  inversion H'''; subst. eauto.
Qed.

(** ** The IP pattern and [_validate_ip] *)

Lemma ip_digits c c' :
  In c' (ends false (Rep 1 (Some 3) (Class false [CDigit])) c) ->
  exists m, digits13 m /\ reaches c m c'.
Proof.
  intros H. apply in_ends_class_rep in H as (m & L & F & R).
  exists m. split; [|exact R]. split; [exact L|].
  rewrite <- F. apply forallb_pointwise. intros x. symmetry. apply class_digit.
Qed.

Lemma lit_dot x : lit_test false "." x = true -> x = ".".
Proof. unfold lit_test. intros H. apply Ascii.eqb_eq in H. auto. Qed.

Lemma ip_group c c' :
  In c' (ends false (Cat (Rep 1 (Some 3) (Class false [CDigit])) (Lit ".")) c) ->
  exists m, digits13 m /\ reaches c (m ++ ["."]) c'.
Proof.
  intros H. apply in_ends_cat in H as (c1 & H1 & H2).
  apply ip_digits in H1 as (m & D & R1).
  apply in_ends_lit in H2 as (x & E & R2). apply lit_dot in E. subst x.
  exists m. split; [exact D|]. eapply reaches_trans; eassumption.
Qed.

(** Whatever the IP pattern matches is a dotted quad between two word
    boundaries. *)
Lemma ip_ends c c' :
  In c' (ends false (expr _IP_PATTERN) c) ->
  exists v, dotted_quad v /\ reaches c v c'
            /\ at_boundary c = true /\ at_boundary c' = true.
Proof.
  unfold _IP_PATTERN, cat. cbn [expr foldr]. intros H.
  apply in_ends_cat in H as (c0 & H0 & H).
  apply in_ends_wordb in H0 as [B0 ->].
  apply in_ends_cat in H as (c3 & H3 & H).
  apply in_ends_cat in H as (c4 & H4 & H).
  apply in_ends_wordb in H as [B4 ->].
  cbn [ends] in H3. apply rep_spec in H3 as (k & Hk & Hc).
  assert (k = 3) by lia. subst k.
  apply chain_three in Hc as (c1 & c2 & G1 & G2 & G3).
  apply ip_group in G1 as (a & Da & Ra).
  apply ip_group in G2 as (b & Db & Rb).
  apply ip_group in G3 as (d & Dd & Rd).
  apply ip_digits in H4 as (e & De & Re).
  exists (a ++ "." :: b ++ "." :: d ++ "." :: e).
  split; [exists a, b, d, e; auto|].
  split; [|auto].
  pose proof (reaches_trans _ _ _ _ _ Ra
                (reaches_trans _ _ _ _ _ Rb
                   (reaches_trans _ _ _ _ _ Rd Re))) as R.
  repeat rewrite <- app_assoc in R. exact R.
Qed.

Lemma int_digits_digits m : forall acc b,
  forallb is_digit m = true -> m <> [] \/ b = true ->
  int_digits acc b m
  = Some (fold_left (fun acc x => 10 * acc + digit_value x)%Z m acc).
Proof.
  induction m as [|x m IH]; intros acc b F Hne; simpl.
  - destruct Hne as [Hne| ->]; [congruence|reflexivity].
  - simpl in F. apply andb_true_iff in F as [E F]. rewrite E.
    apply IH; auto.
Qed.

Lemma lstrip_no_space m :
  forallb (fun x => negb (is_int_space x)) m = true -> lstrip m = m.
Proof.
  destruct m as [|x m]; simpl; [reflexivity|].
  intros H. apply andb_true_iff in H as [E _].
  destruct (is_int_space x); [discriminate|reflexivity].
Qed.

Lemma forallb_rev (f : ascii -> bool) m : forallb f (rev m) = forallb f m.
Proof.
  induction m as [|x m IH]; simpl; [reflexivity|].
  rewrite forallb_app, IH. simpl. rewrite andb_true_r. apply andb_comm.
Qed.

Lemma strip_no_space m :
  forallb (fun x => negb (is_int_space x)) m = true -> strip m = m.
Proof.
  intros H. unfold strip. rewrite (lstrip_no_space m H).
  rewrite lstrip_no_space; [apply rev_involutive|].
  rewrite forallb_rev. exact H.
Qed.

Lemma is_digit_no_space x : is_digit x = true -> negb (is_int_space x) = true.
Proof. each_char x; vm_compute; congruence. Qed.

Lemma is_digit_no_dot x : is_digit x = true -> negb (x =? ".") = true.
Proof. each_char x; vm_compute; congruence. Qed.

Lemma forallb_impl (f g : ascii -> bool) m :
  (forall x, f x = true -> g x = true) -> forallb f m = true -> forallb g m = true.
Proof.
  intros I. induction m as [|x m IH]; simpl; [auto|].
  intros H. apply andb_true_iff in H as [E F]. rewrite (I _ E). auto.
Qed.

(** [int] of a non-empty string of digits is its decimal value: no
    [ValueError]. *)
Lemma py_int_digits m :
  m <> [] -> forallb is_digit m = true -> py_int m = Some (decimal m).
Proof.
  intros Hne F. unfold py_int.
  rewrite strip_no_space by (eapply forallb_impl; [apply is_digit_no_space|exact F]).
  destruct m as [|x m]; [congruence|].
  assert (E : is_digit x = true) by (simpl in F; apply andb_true_iff in F; tauto).
  transitivity (int_digits 0 false (x :: m)).
  - each_char x; try discriminate E; reflexivity.
  - apply int_digits_digits; auto.
Qed.

Lemma decimal_nonneg_from m : forall acc,
  (0 <= acc)%Z ->
  (0 <= fold_left (fun acc x => 10 * acc + digit_value x) m acc)%Z.
Proof.
  induction m as [|x m IH]; intros acc H; simpl; [exact H|].
  apply IH. unfold digit_value. lia.
Qed.

Lemma decimal_nonneg m : (0 <= decimal m)%Z.
Proof. apply decimal_nonneg_from. lia. Qed.

Lemma split_one sep m :
  forallb (fun x => negb (x =? sep)) m = true -> split sep m = [m].
Proof.
  induction m as [|x m IH]; simpl; [reflexivity|].
  intros H. apply andb_true_iff in H as [E F].
  destruct (x =? sep); [discriminate|]. now rewrite IH.
Qed.

Lemma split_app sep a r :
  forallb (fun x => negb (x =? sep)) a = true ->
  split sep (a ++ sep :: r) = a :: split sep r.
Proof.
  induction a as [|x a IH]; simpl.
  - intros _. now rewrite Ascii.eqb_refl.
  - intros H. apply andb_true_iff in H as [E F].
    destruct (x =? sep); [discriminate|]. now rewrite IH.
Qed.

Lemma digits13_no_dot m :
  digits13 m -> forallb (fun x => negb (x =? ".")) m = true.
Proof. intros [_ F]. eapply forallb_impl; [apply is_digit_no_dot|exact F]. Qed.

Lemma digits13_int m : digits13 m -> py_int m = Some (decimal m).
Proof.
  intros [L F]. apply py_int_digits; [|exact F].
  destruct m; simpl in *; [lia|discriminate].
Qed.

Lemma octets_in_range_spec parts :
  octets_in_range parts = true <-> Forall octet parts.
Proof.
  induction parts as [|p parts IH]; simpl.
  - split; auto.
  - rewrite Forall_cons_iff, <- IH. unfold octet.
    destruct (py_int p) as [n|].
    + destruct (Z.ltb_spec n 0) as [H0|H0]; simpl.
      * split; [discriminate|]. intros [(n' & [= <-] & ?) _]. lia.
      * destruct (Z.ltb_spec 255 n) as [H1|H1].
        -- split; [discriminate|]. intros [(n' & [= <-] & ?) _]. lia.
        -- split.
           ++ intros H. split; [|exact H]. exists n. split; [reflexivity|lia].
           ++ intros [_ H]. exact H.
    + split; [discriminate|]. intros [(n' & ? & _) _]. discriminate.
Qed.

Lemma _validate_ip_spec ip : _validate_ip ip = true <-> four_octets ip.
Proof.
  unfold _validate_ip, four_octets. split.
  - destruct (Nat.eqb_spec (length (split "." ip)) 4) as [L|]; simpl; [|discriminate].
    intros H. apply octets_in_range_spec in H.
    destruct (split "." ip) as [|a [|b [|c [|d [|? ?]]]]]; try discriminate L.
    exists a, b, c, d. split; [reflexivity|].
    repeat (apply Forall_cons_iff in H as [? H]). auto.
  - intros (a & b & c & d & -> & Ha & Hb & Hc & Hd).
    change (octets_in_range [a; b; c; d] = true).
    apply octets_in_range_spec. repeat constructor; assumption.
Qed.

Lemma reaches_same_text c m m' c' : reaches c m c' -> reaches c m' c' -> m = m'.
Proof.
  intros R R'. rewrite <- (reaches_matched _ _ _ R). apply reaches_matched. exact R'.
Qed.

Lemma found_in_ends p bh ah v :
  found_at p bh ah v ->
  exists c', In c' (ends (ignorecase p) (expr p) (Cursor bh ah))
             /\ reaches (Cursor bh ah) v c'.
Proof.
  intros H. apply found_at_reaches in H as (c' & M & R).
  exists c'. split; [apply match_at_In; exact M|exact R].
Qed.

Lemma finditer_ip_shape t v : In v (finditer _IP_PATTERN t) -> dotted_quad v.
Proof.
  intros H. apply finditer_sound in H as (pre & post & _ & F).
  apply found_in_ends in F as (c' & H & R).
  apply ip_ends in H as (v' & Q & R' & _).
  now rewrite (reaches_same_text _ _ _ _ R R').
Qed.

(** Which values each pass contributes. *)

Lemma elem_of_ip text s :
  mkIOC IP s ∈ validate_iocs text <->
  exists v, In v (finditer _IP_PATTERN (refang (chars text)))
            /\ _validate_ip v = true /\ s = text_of v.
Proof.
  rewrite elem_of_validate_iocs, elem_of_passes. split.
  - intros [(v & ? & ? & [= ->])|[(m & _ & _ & [=])|[(m & _ & [=])|(m & _ & [=])]]].
    eauto.
  - intros (v & ? & ? & ->). left. eauto.
Qed.

Lemma elem_of_domain text s :
  mkIOC DOMAIN s ∈ validate_iocs text <->
  exists m, In m (finditer _DOMAIN_PATTERN (refang (chars text)))
            /\ fullmatch _IP_PATTERN (lower m) = false /\ s = text_of (lower m).
Proof.
  rewrite elem_of_validate_iocs, elem_of_passes. split.
  - intros [(v & _ & _ & [=])|[(m & ? & ? & [= ->])|[(m & _ & [=])|(m & _ & [=])]]].
    eauto.
  - intros (v & ? & ? & ->). right. left. eauto.
Qed.

Lemma elem_of_hash text s :
  mkIOC HASH s ∈ validate_iocs text <->
  exists m, In m (finditer _HASH_PATTERN (refang (chars text))) /\ s = text_of m.
Proof.
  rewrite elem_of_validate_iocs, elem_of_passes. split.
  - intros [(v & _ & _ & [=])|[(m & _ & _ & [=])|[(m & ? & [= ->])|(m & _ & [=])]]].
    eauto.
  - intros (v & ? & ->). right. right. left. eauto.
Qed.

Lemma elem_of_url text s :
  mkIOC URL s ∈ validate_iocs text <->
  exists m, In m (finditer _URL_PATTERN (refang (chars text))) /\ s = text_of m.
Proof.
  rewrite elem_of_validate_iocs, elem_of_passes. split.
  - intros [(v & _ & _ & [=])|[(m & _ & _ & [=])|[(m & _ & [=])|(m & ? & [= ->])]]].
    eauto.
  - intros (v & ? & ->). right. right. right. eauto.
Qed.

Lemma octet_digits m : digits13 m -> octet m <-> (decimal m <= 255)%Z.
Proof.
  intros D. unfold octet. rewrite (digits13_int _ D). split.
  - intros (n & [= <-] & ?). lia.
  - intros H. exists (decimal m). split; [reflexivity|].
    pose proof (decimal_nonneg m). lia.
Qed.

(** C4.  A candidate of the IP pattern splits on the dot into exactly four
    parts of one to three digits; [int] of each part succeeds and is its
    decimal value; and the candidate is reported, under its own text, if
    and only if the four parts are integers from 0 to 255, that is, if and
    only if no part exceeds 255.  A candidate that fails is left out. *)
Theorem ip_candidate_emitted_iff (text : string) (v : list ascii) :
  In v (finditer _IP_PATTERN (refang (chars text))) ->
  (mkIOC IP (text_of v) ∈ validate_iocs text <-> four_octets v)
  /\ exists a b c d,
       v = a ++ "." :: b ++ "." :: c ++ "." :: d
       /\ split "." v = [a; b; c; d]
       /\ Forall (fun part => digits13 part /\ py_int part = Some (decimal part))
                 [a; b; c; d]
       /\ (four_octets v <->
           Forall (fun part => (decimal part <= 255)%Z) [a; b; c; d]).
Proof.
  intros Hin. split.
  - rewrite <- _validate_ip_spec, elem_of_ip. split.
    + intros (v' & _ & Hok & E). apply text_of_inj in E. now subst.
    + intros Hok. exists v. auto.
  - pose proof (finditer_ip_shape _ _ Hin) as Q.
    destruct Q as (a & b & c & d & E & Da & Db & Dc & Dd).
    exists a, b, c, d. split; [exact E|].
    assert (Sp : split "." v = [a; b; c; d]).
    { rewrite E. rewrite !split_app by (apply digits13_no_dot; assumption).
      rewrite split_one by (apply digits13_no_dot; assumption). reflexivity. }
    split; [exact Sp|]. split.
    + repeat (constructor;
              [split; [assumption|apply digits13_int; assumption]|]).
      constructor.
    + unfold four_octets. rewrite Sp. split.
      * intros (a0 & b0 & c0 & d0 & [= <- <- <- <-] & Ha & Hb & Hc & Hd).
        repeat (constructor; [apply octet_digits; assumption|]).
        constructor.
      * intros H. exists a, b, c, d. split; [reflexivity|].
        repeat (apply Forall_cons_iff in H as [? H]).
        repeat split; apply octet_digits; assumption.
Qed.

Lemma ip_candidate_emitted_iff_witness :
  In (chars "001.002.003.004")
     (finditer _IP_PATTERN (refang (chars "see 001.002.003.004 and 999.1.1.1")))
  /\ mkIOC IP "001.002.003.004" ∈ validate_iocs "see 001.002.003.004 and 999.1.1.1".
Proof.
  assert (H : In (chars "001.002.003.004")
                 (finditer _IP_PATTERN
                    (refang (chars "see 001.002.003.004 and 999.1.1.1")))).
  { vm_compute. left. reflexivity. }
  split; [exact H|].
  apply (proj1 (ip_candidate_emitted_iff
                  "see 001.002.003.004 and 999.1.1.1" (chars "001.002.003.004") H)).
  apply _validate_ip_spec. vm_compute. reflexivity.
Defined.

(** The octet above 255 is a candidate and is left out. *)
Example ip_out_of_range_dropped :
  In (chars "999.1.1.1")
     (finditer _IP_PATTERN (refang (chars "see 001.002.003.004 and 999.1.1.1")))
  /\ mkIOC IP "999.1.1.1" ∉ validate_iocs "see 001.002.003.004 and 999.1.1.1".
Proof.
  split; [vm_compute; right; left; reflexivity|].
  rewrite elem_of_ip. intros (v & _ & Hok & E).
  apply (f_equal chars) in E. rewrite chars_text_of in E. subst v.
  vm_compute in Hok. discriminate.
Qed.

(** ** The domain pattern *)

Lemma domain_ends c c' :
  In c' (ends true (expr _DOMAIN_PATTERN) c) ->
  exists v, domain_shape v /\ reaches c v c'.
Proof.
  unfold _DOMAIN_PATTERN, cat. cbn [expr foldr]. intros H.
  apply in_ends_cat in H as (c0 & H0 & H).
  apply in_ends_not_behind in H0 as ->.
  apply in_ends_cat in H as (c1 & H1 & H).
  apply in_ends_cat in H as (c2 & H2 & H).
  apply in_ends_not_ahead in H as [_ ->].
  apply ends_reaches in H1 as (labels & R1).
  apply in_ends_class_rep_unbounded in H2 as (tld & L & F & R2).
  exists (labels ++ tld). split.
  - exists labels, tld. split; [reflexivity|]. split; [exact L|].
    rewrite <- F. apply forallb_pointwise. intros x. symmetry. apply class_alpha.
  - eapply reaches_trans; eassumption.
Qed.

Lemma finditer_domain_shape t m : In m (finditer _DOMAIN_PATTERN t) -> domain_shape m.
Proof.
  intros H. apply finditer_sound in H as (pre & post & _ & F).
  apply found_in_ends in F as (c' & H & R).
  apply domain_ends in H as (v' & Q & R').
  now rewrite (reaches_same_text _ _ _ _ R R').
Qed.

Lemma digits13_last m : digits13 m -> exists m' x, m = m' ++ [x] /\ is_digit x = true.
Proof.
  intros [L F]. destruct (exists_last (l := m)) as (m' & x & ->).
  - destruct m; simpl in *; [lia|discriminate].
  - exists m', x. split; [reflexivity|].
    rewrite forallb_app in F. simpl in F.
    apply andb_true_iff in F as [_ F]. now rewrite andb_true_r in F.
Qed.

Lemma dotted_quad_last v :
  dotted_quad v -> exists v' x, v = v' ++ [x] /\ is_digit x = true.
Proof.
  intros (a & b & c & d & -> & _ & _ & _ & Dd).
  apply digits13_last in Dd as (d' & x & -> & E).
  exists (a ++ "." :: b ++ "." :: c ++ "." :: d'), x. split; [|exact E].
  repeat (rewrite <- ?app_assoc; simpl). reflexivity.
Qed.

Lemma domain_shape_last v :
  domain_shape v -> exists v' x, v = v' ++ [x] /\ is_alpha x = true.
Proof.
  intros (labels & tld & -> & L & F).
  destruct (exists_last (l := tld)) as (t' & x & ->).
  - destruct tld; simpl in *; [lia|discriminate].
  - exists (labels ++ t'), x. split; [apply app_assoc|].
    rewrite forallb_app in F. simpl in F.
    apply andb_true_iff in F as [_ F]. now rewrite andb_true_r in F.
Qed.

(** A lower-cased domain match is never a dotted quad: it ends in a
    letter, a dotted quad in a digit. *)
Lemma domain_not_dotted_quad m : domain_shape m -> ~ dotted_quad (lower m).
Proof.
  intros D Q.
  apply domain_shape_last in D as (m' & x & -> & A).
  apply dotted_quad_last in Q as (v' & y & E & G).
  unfold lower in E. rewrite map_app in E. simpl in E.
  apply app_inj_tail in E as [_ <-].
  rewrite (is_alpha_lower_not_digit _ A) in G. discriminate.
Qed.

Lemma fullmatch_ip_shape s : fullmatch _IP_PATTERN s = true -> dotted_quad s.
Proof.
  unfold fullmatch. intros H. apply existsb_exists in H as (c' & H & E).
  apply ip_ends in H as (v & Q & [A _] & _). simpl in A.
  destruct (ahead c'); [|discriminate]. rewrite app_nil_r in A. now subst.
Qed.

Lemma domain_filter_idle m :
  domain_shape m -> fullmatch _IP_PATTERN (lower m) = false.
Proof.
  intros D. destruct (fullmatch _IP_PATTERN (lower m)) eqn:E; [|reflexivity].
  destruct (domain_not_dotted_quad _ D). apply fullmatch_ip_shape. exact E.
Qed.

(** C5.  A value reported under IP is a dotted quad that passes
    [_validate_ip], and it is never reported under DOMAIN as well. *)
Theorem ip_value_never_domain (text : string) (v : string) :
  mkIOC IP v ∈ validate_iocs text ->
  dotted_quad (chars v) /\ _validate_ip (chars v) = true
  /\ mkIOC DOMAIN v ∉ validate_iocs text.
Proof.
  rewrite elem_of_ip. intros (w & Hin & Hok & ->).
  rewrite chars_text_of.
  pose proof (finditer_ip_shape _ _ Hin) as Q.
  split; [exact Q|]. split; [exact Hok|].
  rewrite elem_of_domain. intros (m & Hm & _ & E).
  apply text_of_inj in E. subst w.
  apply (domain_not_dotted_quad m); [|exact Q].
  eapply finditer_domain_shape. exact Hm.
Qed.

Lemma ip_value_never_domain_witness :
  mkIOC IP "10.0.0.1" ∈ validate_iocs "host 10.0.0.1 at example.com"
  /\ mkIOC DOMAIN "10.0.0.1" ∉ validate_iocs "host 10.0.0.1 at example.com".
Proof.
  assert (H : mkIOC IP "10.0.0.1" ∈ validate_iocs "host 10.0.0.1 at example.com").
  { apply elem_of_ip. exists (chars "10.0.0.1").
    split; [vm_compute; left; reflexivity|]. split; reflexivity. }
  split; [exact H|].
  exact (proj2 (proj2 (ip_value_never_domain _ _ H))).
Defined.

Lemma foldl_agree {A B} (f g : A -> B -> A) l :
  (forall a x, In x l -> f a x = g a x) -> forall a, foldl f a l = foldl g a l.
Proof.
  induction l as [|x l IH]; intros E a; simpl; [reflexivity|].
  rewrite (E a x) by (left; reflexivity).
  apply IH. intros a' y Hy. apply E. right. exact Hy.
Qed.

Lemma is_alpha_not_digit x : is_alpha x = true -> is_digit x = false.
Proof. each_char x; vm_compute; congruence. Qed.

Lemma domain_not_dotted_quad_raw m : domain_shape m -> ~ dotted_quad m.
Proof.
  intros D Q.
  apply domain_shape_last in D as (m' & x & -> & A).
  apply dotted_quad_last in Q as (v' & y & E & G).
  apply app_inj_tail in E as [_ <-].
  rewrite (is_alpha_not_digit _ A) in G. discriminate.
Qed.

(** C6.  Whatever the domain pattern matches, at any position and along
    any way of matching, the IP pattern fully matches neither it nor its
    lower-casing: the matched text ends in a letter, where the IP pattern
    wants a digit.  So the test in the domain pass never skips anything,
    and [validate_iocs] is the same function with the test removed. *)
Theorem domain_filter_unreachable :
  (forall c c',
      In c' (ends (ignorecase _DOMAIN_PATTERN) (expr _DOMAIN_PATTERN) c) ->
      fullmatch _IP_PATTERN (matched c c') = false
      /\ fullmatch _IP_PATTERN (lower (matched c c')) = false)
  /\ (forall t m, In m (finditer _DOMAIN_PATTERN t) ->
                  fullmatch _IP_PATTERN (lower m) = false)
  /\ (forall text, validate_iocs text = validate_iocs_unfiltered text).
Proof.
  split; [|split].
  - intros c c' H. apply domain_ends in H as (v & D & R).
    rewrite (reaches_matched _ _ _ R). split.
    + destruct (fullmatch _IP_PATTERN v) eqn:E; [|reflexivity].
      destruct (domain_not_dotted_quad_raw _ D). apply fullmatch_ip_shape. exact E.
    + apply domain_filter_idle. exact D.
  - intros t m H. apply domain_filter_idle. eapply finditer_domain_shape. exact H.
  - intros [|a s]; [reflexivity|].
    unfold validate_iocs, validate_iocs_unfiltered.
    cbv zeta. do 2 f_equal.
    apply foldl_agree. intros R m Hm.
    unfold add_domain, add_domain_unfiltered. cbv zeta.
    rewrite domain_filter_idle; [reflexivity|].
    eapply finditer_domain_shape. exact Hm.
Qed.

(** ** The hash pattern *)

Lemma ends_cat_eq ic r1 r2 c :
  ends ic (Cat r1 r2) c = flat_map (ends ic r2) (ends ic r1 c).
Proof. reflexivity. Qed.

Lemma ends_alt_eq ic r1 r2 c : ends ic (Alt r1 r2) c = ends ic r1 c ++ ends ic r2 c.
Proof. reflexivity. Qed.

Lemma ends_wordb_eq ic c : ends ic WordB c = if at_boundary c then [c] else [].
Proof. reflexivity. Qed.

Lemma forward_app m bh rest :
  forward (length m) (Cursor bh (m ++ rest)) = Cursor (rev m ++ bh) rest.
Proof.
  unfold forward. simpl. now rewrite take_app_length, drop_app_length.
Qed.

(** A class repeated exactly [n] times has one way to match, or none. *)
Lemma rep_eat_fixed ok n : forall c,
  rep (eat ok) n n c =
  if (n <=? length (ahead c))%nat && forallb ok (take n (ahead c))
  then [forward n c] else [].
Proof.
  induction n as [|n IH]; intros [bh ah].
  - reflexivity.
  - cbn [rep pred]. rewrite app_nil_r.
    destruct ah as [|x r]; [reflexivity|].
    rewrite eat_cons. cbn [ahead length take forallb].
    destruct (ok x); [|cbn [flat_map andb]; now rewrite andb_false_r].
    cbn [flat_map ahead length]. rewrite app_nil_r.
    destruct (Nat.ltb_spec (length r) (S (length r))) as [_|]; [|lia].
    rewrite IH. cbn [ahead andb].
    change (S n <=? S (length r))%nat with (n <=? length r)%nat.
    destruct ((n <=? length r)%nat && forallb ok (take n r)); [|reflexivity].
    unfold forward. cbn [ahead behind take drop rev].
    now rewrite <- app_assoc.
Qed.

Lemma ends_class_fixed ic ng its n c :
  ends ic (Rep n (Some n) (Class ng its)) c =
  if (n <=? length (ahead c))%nat && forallb (class_test ic ng its) (take n (ahead c))
  then [forward n c] else [].
Proof. exact (rep_eat_fixed (class_test ic ng its) n c). Qed.

Lemma hash_alternative n c :
  flat_map (ends true WordB) (ends true (Rep n (Some n) (Class false hex_chars)) c)
  = hit n c.
Proof.
  rewrite ends_class_fixed. unfold hit.
  rewrite (forallb_pointwise _ is_hex) by apply class_hex.
  destruct ((n <=? length (ahead c))%nat && forallb is_hex (take n (ahead c)));
    [|reflexivity].
  cbn [flat_map andb]. rewrite ends_wordb_eq, app_nil_r. reflexivity.
Qed.

Lemma hash_ends_eq c :
  ends true (expr _HASH_PATTERN) c =
  if at_boundary c then hit 32 c ++ hit 40 c ++ hit 64 c else [].
Proof.
  unfold _HASH_PATTERN, cat. cbn [expr foldr].
  rewrite ends_cat_eq, ends_wordb_eq.
  destruct (at_boundary c); [|reflexivity].
  cbn [flat_map]. rewrite app_nil_r.
  rewrite ends_cat_eq, !ends_alt_eq, !flat_map_app, !hash_alternative.
  reflexivity.
Qed.

Lemma at_boundary_eq c :
  at_boundary c = xorb (word_behind (behind c)) (word_after (ahead c)).
Proof. reflexivity. Qed.

Lemma word_after_hex v post :
  v <> [] -> forallb is_hex v = true -> word_after (v ++ post) = true.
Proof.
  destruct v as [|x v]; [congruence|]. simpl. intros _ H.
  apply andb_true_iff in H as [E _]. apply is_hex_word. exact E.
Qed.

Lemma word_behind_snoc l y bh : word_behind (rev (l ++ [y]) ++ bh) = is_word y.
Proof. rewrite rev_app_distr. reflexivity. Qed.

Lemma forallb_last (f : ascii -> bool) l y :
  forallb f (l ++ [y]) = true -> f y = true.
Proof.
  rewrite forallb_app. simpl. intros H.
  apply andb_true_iff in H as [_ H]. now rewrite andb_true_r in H.
Qed.

Lemma word_behind_hex v bh :
  v <> [] -> forallb is_hex v = true -> word_behind (rev v ++ bh) = true.
Proof.
  intros Hne F. destruct (exists_last Hne) as (v' & y & ->).
  rewrite word_behind_snoc. apply is_hex_word. eapply forallb_last. exact F.
Qed.

Lemma forallb_take (f : ascii -> bool) n l :
  forallb f l = true -> forallb f (take n l) = true.
Proof.
  revert n. induction l as [|x l IH]; intros [|n]; simpl; auto.
  intros H. apply andb_true_iff in H as [-> H]. simpl. auto.
Qed.

Lemma nonempty_length {A} (l : list A) : 0 < length l -> l <> [].
Proof. destruct l; simpl; [lia|discriminate]. Qed.

Lemma hit_sound n c c' :
  0 < n -> In c' (hit n c) ->
  exists v post,
    ahead c = v ++ post /\ length v = n /\ c' = Cursor (rev v ++ behind c) post
    /\ forallb is_hex v = true /\ word_after post = false.
Proof.
  intros Hn. unfold hit.
  destruct ((n <=? length (ahead c))%nat && forallb is_hex (take n (ahead c))
            && at_boundary (forward n c)) eqn:C; [|intros []].
  apply andb_true_iff in C as [C B]. apply andb_true_iff in C as [L F].
  apply Nat.leb_le in L. intros [<-|[]].
  exists (take n (ahead c)), (drop n (ahead c)).
  assert (Len : length (take n (ahead c)) = n) by (rewrite length_take; lia).
  split; [symmetry; apply take_drop|].
  split; [exact Len|]. split; [reflexivity|]. split; [exact F|].
  rewrite at_boundary_eq in B. cbn [forward behind ahead] in B.
  rewrite word_behind_hex in B; [|apply nonempty_length; lia|exact F].
  destruct (word_after (drop n (ahead c))); [discriminate|reflexivity].
Qed.

(** What the hash pattern matches: a run of 32, 40 or 64 hexadecimal digits
    with no word character on either side. *)
Lemma hash_in_ends bh ah c' :
  In c' (ends true (expr _HASH_PATTERN) (Cursor bh ah)) ->
  exists v post,
    ah = v ++ post /\ c' = Cursor (rev v ++ bh) post
    /\ forallb is_hex v = true /\ hash_length (length v)
    /\ word_behind bh = false /\ word_after post = false.
Proof.
  rewrite hash_ends_eq.
  destruct (at_boundary (Cursor bh ah)) eqn:B; [|intros []].
  intros H.
  assert (Hit : exists n, hash_length n /\ In c' (hit n (Cursor bh ah))).
  { apply in_app_iff in H as [H|H]; [exists 32; split; [left; reflexivity|exact H]|].
    apply in_app_iff in H as [H|H].
    - exists 40. split; [right; left; reflexivity|exact H].
    - exists 64. split; [right; right; reflexivity|exact H]. }
  destruct Hit as (n & Hn & Hit).
  apply hit_sound in Hit as (v & post & A & L & -> & F & W);
    [|destruct Hn as [->|[->| ->]]; lia].
  cbn [ahead behind] in *. subst ah.
  exists v, post. split; [reflexivity|]. split; [reflexivity|].
  split; [exact F|]. split; [now rewrite L|]. split; [|exact W].
  rewrite at_boundary_eq in B. cbn [ahead behind] in B.
  rewrite word_after_hex in B;
    [|apply nonempty_length; destruct Hn as [->|[->| ->]]; lia|exact F].
  destruct (word_behind bh); [discriminate|reflexivity].
Qed.

Lemma hit_inside n bh v post :
  0 < n < length v -> forallb is_hex v = true ->
  hit n (Cursor bh (v ++ post)) = [].
Proof.
  intros Hn F. unfold hit.
  replace (at_boundary (forward n (Cursor bh (v ++ post)))) with false;
    [now rewrite andb_false_r|].
  rewrite <- (take_drop n v) in F |- *.
  rewrite forallb_app in F. apply andb_true_iff in F as [F1 F2].
  assert (L : length (take n v) = n) by (rewrite length_take; lia).
  rewrite <- app_assoc. rewrite <- L at 1. rewrite forward_app.
  rewrite at_boundary_eq. cbn [ahead behind].
  rewrite word_behind_hex; [|apply nonempty_length; lia|exact F1].
  rewrite word_after_hex; [reflexivity| |exact F2].
  apply nonempty_length. rewrite length_drop. lia.
Qed.

Lemma hit_exact bh v post :
  v <> [] -> forallb is_hex v = true -> word_after post = false ->
  hit (length v) (Cursor bh (v ++ post)) = [Cursor (rev v ++ bh) post].
Proof.
  intros Hne F W. unfold hit. rewrite forward_app. cbn [ahead].
  rewrite take_app_length, F, length_app.
  destruct (Nat.leb_spec (length v) (length v + length post)) as [_|]; [|lia].
  rewrite at_boundary_eq. cbn [ahead behind andb].
  rewrite word_behind_hex, W by assumption. reflexivity.
Qed.

Lemma hash_match_at bh v post :
  forallb is_hex v = true -> hash_length (length v) ->
  word_behind bh = false -> word_after post = false ->
  match_at _HASH_PATTERN (Cursor bh (v ++ post)) = Some (Cursor (rev v ++ bh) post).
Proof.
  intros F Hn Wb Wa. unfold match_at. cbn [ignorecase expr _HASH_PATTERN].
  change (ends true _ (Cursor bh (v ++ post)))
    with (ends true (expr _HASH_PATTERN) (Cursor bh (v ++ post))).
  rewrite hash_ends_eq, at_boundary_eq. cbn [ahead behind].
  assert (Hne : v <> []) by (apply nonempty_length; destruct Hn as [->|[->| ->]]; lia).
  rewrite Wb, word_after_hex by assumption. cbn [xorb].
  destruct Hn as [L|[L|L]].
  - rewrite <- L at 1. rewrite hit_exact by assumption. reflexivity.
  - rewrite (hit_inside 32) by (lia || assumption).
    rewrite <- L at 1. rewrite hit_exact by assumption. reflexivity.
  - rewrite (hit_inside 32), (hit_inside 40) by (lia || assumption).
    rewrite <- L at 1. rewrite hit_exact by assumption. reflexivity.
Qed.

Lemma hash_found_iff bh v post :
  found_at _HASH_PATTERN bh (v ++ post) v <->
  forallb is_hex v = true /\ hash_length (length v)
  /\ word_behind bh = false /\ word_after post = false.
Proof.
  split.
  - intros H. apply found_in_ends in H as (c' & H & R).
    apply hash_in_ends in H as (w & post' & A & -> & F & L & Wb & Wa).
    assert (R' : reaches (Cursor bh (v ++ post)) w (Cursor (rev w ++ bh) post'))
      by (split; [exact A|reflexivity]).
    pose proof (reaches_same_text _ _ _ _ R R'). subst w.
    apply app_inv_head in A. subst post'. auto.
  - intros (F & L & Wb & Wa). exists (Cursor (rev v ++ bh) post).
    split; [apply hash_match_at; assumption|].
    apply reaches_matched. split; reflexivity.
Qed.

(** An earlier match of the hash pattern cannot run into a run that has no
    word character before it. *)
Lemma hash_no_overrun p1 p2 rest w :
  p2 <> [] -> word_before (p1 ++ p2) = false ->
  found_at _HASH_PATTERN (rev p1) (p2 ++ rest) w -> length w <= length p2.
Proof.
  intros Hne Wb H.
  destruct (found_at_prefix _ _ _ _ H) as (post' & A).
  rewrite A in H. apply hash_found_iff in H as (F & _ & _ & _).
  destruct (Nat.le_gt_cases (length w) (length p2)) as [|Hgt]; [assumption|exfalso].
  assert (P : p2 = take (length p2) w).
  { apply (f_equal (take (length p2))) in A.
    rewrite take_app_length in A.
    etransitivity; [exact A|]. apply take_app_le. lia. }
  destruct (exists_last Hne) as (p2' & y & E).
  assert (Hy : is_hex y = true).
  { apply (forallb_last _ p2'). rewrite <- E, P. apply forallb_take. exact F. }
  unfold word_before in Wb. rewrite E, app_assoc in Wb.
  rewrite <- (app_nil_r (rev _)) in Wb. rewrite word_behind_snoc in Wb.
  rewrite (is_hex_word _ Hy) in Wb. discriminate.
Qed.

(** C8.  A value is reported under HASH exactly when it occurs in the
    refanged text as a run of hexadecimal digits, in either case, of length
    32, 40 or 64, with no word character directly before or after it (the
    start and the end of the text count as none); the run is maximal, as a
    hexadecimal digit is a word character.  Nothing else is asked of it,
    and the value is the run itself, as it stands in the text. *)
Theorem hash_emitted_iff (text v : string) :
  mkIOC HASH v ∈ validate_iocs text <-> hash_run (refang (chars text)) (chars v).
Proof.
  rewrite elem_of_hash. split.
  - intros (m & Hin & ->). rewrite chars_text_of.
    apply finditer_sound in Hin as (pre & post & E & H).
    apply hash_found_iff in H as (F & L & Wb & Wa).
    exists pre, post. auto.
  - intros (pre & post & E & F & L & Wb & Wa).
    exists (chars v). split; [|symmetry; apply text_of_chars].
    rewrite E. apply finditer_complete.
    + intros p1 p2 w -> Hne H. eapply hash_no_overrun; eassumption.
    + apply hash_found_iff. auto.
Qed.

(** ** The URL pattern *)

Lemma url_expr :
  expr _URL_PATTERN
  = lits (chars "http") (Cat (Rep 0 (Some 1) (Lit "s")) (lits (chars "://") url_body)).
Proof. reflexivity. Qed.

Lemma ends_eat_cat ic r1 ok R bh ah :
  (forall c, ends ic r1 c = eat ok c) ->
  ends ic (Cat r1 R) (Cursor bh ah) =
  match ah with
  | x :: r => if ok x then ends ic R (Cursor (x :: bh) r) else []
  | [] => []
  end.
Proof.
  intros E. rewrite ends_cat_eq, E.
  destruct ah as [|x r]; [reflexivity|].
  rewrite eat_cons. destruct (ok x); cbn [flat_map]; [apply app_nil_r|reflexivity].
Qed.

Lemma ends_lit_cat a R bh ah :
  ends true (Cat (Lit a) R) (Cursor bh ah) =
  match ah with
  | x :: r => if same_letter a x then ends true R (Cursor (x :: bh) r) else []
  | [] => []
  end.
Proof. apply (ends_eat_cat true (Lit a) (same_letter a)). reflexivity. Qed.

Lemma ends_lits l : forall R bh ah,
  ends true (lits l R) (Cursor bh ah) =
  match ci_prefix l ah with
  | Some r => ends true R (Cursor (rev (take (length l) ah) ++ bh) r)
  | None => []
  end.
Proof.
  induction l as [|a l IH]; intros R bh ah.
  - reflexivity.
  - change (lits (a :: l) R) with (Cat (Lit a) (lits l R)).
    rewrite ends_lit_cat. cbn [ci_prefix length].
    destruct ah as [|x r]; [reflexivity|].
    destruct (same_letter a x); [|reflexivity].
    rewrite IH. destruct (ci_prefix l r); [|reflexivity].
    cbn [take rev]. now rewrite <- app_assoc.
Qed.

Lemma ends_opt_lit_cat a R bh ah :
  ends true (Cat (Rep 0 (Some 1) (Lit a)) R) (Cursor bh ah) =
  match ah with
  | x :: r => if same_letter a x then ends true R (Cursor (x :: bh) r) else []
  | [] => []
  end ++ ends true R (Cursor bh ah).
Proof.
  rewrite ends_cat_eq. cbn [ends rep pred].
  destruct ah as [|x r].
  - rewrite eat_nil. cbn [flat_map app]. now rewrite app_nil_r.
  - rewrite eat_cons. change (lit_test true a x) with (same_letter a x).
    destruct (same_letter a x); cbn [flat_map app ahead].
    + replace (length r <? length (x :: r))%nat with true
        by (symmetry; apply Nat.ltb_lt; simpl; lia).
      cbn [app flat_map]. now rewrite !app_nil_r.
    + now rewrite app_nil_r.
Qed.

(** The engine's first choice for a starred class is the whole run. *)
Lemma star_head ok hi : forall bh ah,
  length ah <= hi ->
  head (rep (eat ok) 0 hi (Cursor bh ah))
  = Some (Cursor (rev (run ok ah) ++ bh) (after_run ok ah)).
Proof.
  induction hi as [|hi IH]; intros bh ah L.
  - destruct ah; [reflexivity|simpl in L; lia].
  - cbn [rep pred]. destruct ah as [|x r]; [reflexivity|].
    rewrite eat_cons. cbn [run after_run].
    destruct (ok x); cbn [flat_map app ahead]; [|reflexivity].
    replace (length r <? length (x :: r))%nat with true
      by (symmetry; apply Nat.ltb_lt; simpl; lia).
    rewrite app_nil_r. apply head_app_Some.
    rewrite IH by (simpl in L; lia).
    left. cbn [rev]. now rewrite <- app_assoc.
Qed.

Lemma after_run_pointwise f g s :
  (forall x, f x = g x) -> after_run f s = after_run g s.
Proof.
  intros E. induction s as [|x s IH]; simpl; [reflexivity|].
  rewrite E, IH. reflexivity.
Qed.

Lemma url_body_head bh s :
  ahead <$> head (ends true url_body (Cursor bh s)) = url_body_rest s.
Proof.
  unfold url_body.
  rewrite (ends_eat_cat true _ is_url_head)
    by (intros c; cbn [ends]; unfold eat; destruct (ahead c); [reflexivity|];
        now rewrite class_url_head).
  destruct s as [|x [|y t]]; cbn [url_body_rest]; [reflexivity| |].
  - destruct (is_url_head x); [|reflexivity].
    rewrite (ends_eat_cat true _ (fun x => negb (x =? LF))) by reflexivity.
    reflexivity.
  - destruct (is_url_head x); [|reflexivity].
    rewrite (ends_eat_cat true _ (fun x => negb (x =? LF))) by reflexivity.
    destruct (negb (y =? LF)); [|reflexivity].
    cbn [ends ahead andb].
    change (rep (ends true (Class true [CSpace])))
      with (rep (eat (class_test true true [CSpace]))).
    rewrite star_head by lia. cbn [fmap option_fmap option_map ahead].
    f_equal. apply after_run_pointwise. apply class_not_space.
Qed.

Lemma ci_prefix_app l1 l2 s :
  ci_prefix (l1 ++ l2) s =
  match ci_prefix l1 s with Some r => ci_prefix l2 r | None => None end.
Proof.
  revert s. induction l1 as [|a l1 IH]; intros s; [reflexivity|].
  cbn [app ci_prefix]. destruct s as [|x s]; [reflexivity|].
  destruct (same_letter a x); [apply IH|reflexivity].
Qed.

Lemma s_not_colon x : same_letter "s" x = true -> same_letter ":" x = false.
Proof. each_char x; vm_compute; congruence. Qed.

(** The engine's answer for the URL pattern, as what it leaves of the
    subject. *)
Lemma url_match_rest bh ah :
  ahead <$> match_at _URL_PATTERN (Cursor bh ah) = url_rest ah.
Proof.
  unfold match_at. change (ignorecase _URL_PATTERN) with true.
  rewrite url_expr, ends_lits. unfold url_rest.
  change (chars "https://") with (chars "http" ++ "s" :: chars "://").
  change (chars "http://") with (chars "http" ++ chars "://").
  rewrite !ci_prefix_app.
  destruct (ci_prefix (chars "http") ah) as [r4|]; [|reflexivity].
  rewrite ends_opt_lit_cat, !ends_lits.
  destruct r4 as [|x r5]; [reflexivity|].
  cbn [ci_prefix]. change (chars "://") with [":"; "/"; "/"].
  destruct (same_letter "s" x) eqn:Es.
  - rewrite ends_lits.
    replace (ci_prefix [":"; "/"; "/"] (x :: r5)) with (@None (list ascii))
      by (cbn [ci_prefix]; now rewrite (s_not_colon _ Es)).
    rewrite app_nil_r.
    destruct (ci_prefix [":"; "/"; "/"] r5); [apply url_body_head|reflexivity].
  - cbn [app].
    destruct (ci_prefix [":"; "/"; "/"] (x :: r5)); [apply url_body_head|reflexivity].
Qed.

Lemma same_letter_eq a x : same_letter a x = true <-> lower_char a = lower_char x.
Proof. apply Ascii.eqb_eq. Qed.

Lemma ci_prefix_spec l : forall s r,
  ci_prefix l s = Some r -> exists m, s = m ++ r /\ lower m = lower l.
Proof.
  induction l as [|a l IH]; intros s r; cbn [ci_prefix].
  - intros [= ->]. exists []. auto.
  - destruct s as [|x s]; [discriminate|].
    destruct (same_letter a x) eqn:E; [|discriminate].
    intros H. apply IH in H as (m & -> & L). exists (x :: m).
    split; [reflexivity|]. simpl. apply same_letter_eq in E. congruence.
Qed.

Lemma run_after_run f s : s = run f s ++ after_run f s.
Proof.
  induction s as [|x s IH]; simpl; [reflexivity|].
  destruct (f x); simpl; congruence.
Qed.

Lemma run_all f s : forallb f (run f s) = true.
Proof.
  induction s as [|x s IH]; simpl; [reflexivity|].
  destruct (f x) eqn:E; simpl; [now rewrite E|reflexivity].
Qed.

Lemma after_run_stops s : stops (after_run not_space s).
Proof.
  induction s as [|x s IH]; simpl; [exact I|].
  unfold not_space at 1. destruct (is_space x) eqn:E; simpl; [exact E|exact IH].
Qed.

Lemma after_run_app tail post :
  forallb not_space tail = true -> stops post ->
  after_run not_space (tail ++ post) = post.
Proof.
  intros F S. induction tail as [|x tail IH]; simpl in *.
  - destruct post as [|z post]; simpl; [reflexivity|].
    unfold not_space. simpl in S. now rewrite S.
  - apply andb_true_iff in F as [-> F]. auto.
Qed.

Lemma url_body_rest_spec r post :
  url_body_rest r = Some post <->
  exists x y tail,
    r = x :: y :: tail ++ post
    /\ is_url_head x = true /\ y <> LF
    /\ forallb not_space tail = true /\ stops post.
Proof.
  unfold url_body_rest. split.
  - destruct r as [|x [|y t]]; try discriminate.
    destruct (is_url_head x) eqn:Hx; [|discriminate].
    destruct (Ascii.eqb_spec y LF) as [|Hy]; [discriminate|].
    intros [= <-]. exists x, y, (run not_space t).
    split; [now rewrite <- run_after_run|].
    split; [exact Hx|]. split; [exact Hy|].
    split; [apply run_all|apply after_run_stops].
  - intros (x & y & tail & -> & Hx & Hy & F & S). rewrite Hx.
    destruct (Ascii.eqb_spec y LF) as [|_]; [contradiction|].
    cbn [andb negb]. now rewrite after_run_app.
Qed.

Lemma url_rest_shape v post :
  url_rest (v ++ post) = Some post <-> url_shape v post.
Proof.
  split.
  - unfold url_rest.
    assert (K : forall l r,
               lower l = chars "http://" \/ lower l = chars "https://" ->
               ci_prefix l (v ++ post) = Some r ->
               url_body_rest r = Some post -> url_shape v post).
    { intros l r Hl C B.
      apply ci_prefix_spec in C as (m & E & L).
      apply url_body_rest_spec in B as (x & y & tail & -> & Hx & Hy & F & S).
      exists m, x, y, tail.
      split.
      - apply (app_inv_tail post). rewrite E, <- app_assoc. reflexivity.
      - split; [|auto]. unfold url_scheme. rewrite L.
        destruct Hl as [Hl|Hl]; rewrite Hl; auto. }
    destruct (ci_prefix (chars "https://") (v ++ post)) as [r|] eqn:C1.
    + apply (K (chars "https://") r); [right; reflexivity|exact C1].
    + destruct (ci_prefix (chars "http://") (v ++ post)) as [r|] eqn:C2;
        [|discriminate].
      apply (K (chars "http://") r); [left; reflexivity|exact C2].
  - intros (scheme & x & y & tail & -> & S & Hx & Hy & F & P).
    assert (B : url_body_rest (x :: y :: tail ++ post) = Some post).
    { apply url_body_rest_spec. exists x, y, tail. auto. }
    rewrite <- app_assoc. cbn [app].
    set (rest := x :: y :: tail ++ post) in *. clearbody rest.
    unfold lower in S. destruct S as [S|S].
    + destruct scheme as [|x1 [|x2 [|x3 [|x4 [|x5 [|x6 [|x7 [|x8 ?]]]]]]]];
        try discriminate S.
      injection S as H1 H2 H3 H4 H5 H6 H7.
      unfold url_rest. simpl. unfold same_letter.
      rewrite H1, H2, H3, H4, H5, H6, H7. simpl. exact B.
    + destruct scheme as [|x1 [|x2 [|x3 [|x4 [|x5 [|x6 [|x7 [|x8 [|x9 ?]]]]]]]]];
        try discriminate S.
      injection S as H1 H2 H3 H4 H5 H6 H7 H8.
      unfold url_rest. simpl. unfold same_letter.
      rewrite H1, H2, H3, H4, H5, H6, H7, H8. simpl. exact B.
Qed.

(** At a position of the subject the engine's match of the URL pattern is
    [v] exactly when [v] has the shape of the pattern and runs up to the
    next white space or the end. *)
Lemma url_found_iff bh v post :
  found_at _URL_PATTERN bh (v ++ post) v <-> url_shape v post.
Proof.
  rewrite <- url_rest_shape, <- (url_match_rest bh). split.
  - intros H. apply found_at_reaches in H as (c' & -> & [A _]).
    simpl in A. apply app_inv_head in A. simpl. congruence.
  - destruct (match_at _URL_PATTERN (Cursor bh (v ++ post))) as [c'|] eqn:M;
      [|discriminate].
    intros [= A]. exists c'. split; [exact M|].
    unfold matched. simpl. rewrite A, length_app.
    replace (length v + length post - length post) with (length v) by lia.
    apply take_app_length.
Qed.

(** White space in a URL value: the claim as stated fails. *)
Lemma url_value_with_space :
  mkIOC URL "http://a b" ∈ validate_iocs "http://a b"
  /\ existsb is_space (chars "http://a b") = true.
Proof.
  split; [|reflexivity].
  apply elem_of_url. exists (chars "http://a b").
  split; [vm_compute; left; reflexivity|reflexivity].
Qed.

(** ** The places at which the scan looks for a match *)

Section Spans.

Variable p : pattern.

Lemma map_snd_spans : forall ah k bh, map snd (spans p k bh ah) = scan p k bh ah.
Proof.
  induction ah as [|x r IH]; intros k bh.
  - destruct k as [|k]; cbn [spans emitted scan]; [|reflexivity].
    destruct (match_at p (Cursor bh [])); reflexivity.
  - cbn [spans]. rewrite map_app, IH.
    destruct k as [|k]; cbn [emitted skip_after scan]; [|reflexivity].
    destruct (match_at p (Cursor bh (x :: r))); reflexivity.
Qed.

Lemma in_emitted k bh ah pre m :
  In (pre, m) (emitted p k bh ah) <-> k = 0 /\ pre = rev bh /\ found_at p bh ah m.
Proof.
  unfold emitted, found_at. destruct k as [|k].
  - destruct (match_at p (Cursor bh ah)) as [c'|]; simpl; split.
    + intros [[= <- <-]|[]]. eauto.
    + intros (_ & -> & c & [= <-] & <-). auto.
    + intros [].
    + intros (_ & _ & c & [=] & _).
  - simpl. split; [intros []|intros ([=] & _)].
Qed.

(** A match is reported at the places where the scan looks, and only
    there. *)
Lemma in_spans : forall ah k bh pre v,
  In (pre, v) (spans p k bh ah) <->
  exists q rest, ah = q ++ rest /\ pre = rev bh ++ q
                 /\ looked_at p k bh ah (length q) = true
                 /\ found_at p (rev q ++ bh) rest v.
Proof.
  assert (Here : forall ah k bh pre v,
             In (pre, v) (emitted p k bh ah) <->
             pre = rev bh ++ [] /\ looked_at p k bh ah 0 = true /\ found_at p bh ah v).
  { intros ah k bh pre v. rewrite in_emitted, app_nil_r. cbn [looked_at].
    rewrite Nat.eqb_eq. tauto. }
  induction ah as [|x r IH]; intros k bh pre v; cbn [spans]; rewrite in_app_iff.
  - rewrite Here. split.
    + intros [(E & L & F)|[]]. exists [], []. auto.
    + intros (q & rest & E & Ep & L & F). symmetry in E.
      apply app_eq_nil in E as [-> ->]. left. auto.
  - rewrite Here, IH. split.
    + intros [(E & L & F)|(q & rest & E & Ep & L & F)].
      * exists [], (x :: r). auto.
      * exists (x :: q), rest. subst r pre. cbn [rev length looked_at app].
        rewrite <- !app_assoc. auto.
    + intros ([|y q] & rest & E & Ep & L & F).
      * left. cbn [app] in E. subst rest. auto.
      * right. cbn [app] in E. injection E as <- ->.
        exists q, rest. cbn [rev length looked_at] in *.
        rewrite <- !app_assoc in *. auto.
Qed.

Lemma spans_behind k bh ah pre v :
  In (pre, v) (spans p k bh ah) -> length bh <= length pre.
Proof.
  intros H. apply in_spans in H as (q & rest & _ & -> & _).
  rewrite length_app, length_rev. lia.
Qed.

Lemma skip_after_le k bh ah n :
  skip_after p k bh ah <= n <->
  k <= S n /\ forall pre m, In (pre, m) (emitted p k bh ah) -> length m <= S n.
Proof.
  unfold skip_after, emitted. destruct k as [|k].
  - destruct (match_at p (Cursor bh ah)) as [c'|]; simpl; split.
    + intros H. split; [lia|]. intros pre m [[= <- <-]|[]]. lia.
    + intros [_ H]. specialize (H _ _ (or_introl eq_refl)). lia.
    + intros _. split; [lia|]. intros pre m [].
    + lia.
  - simpl. split; [intros H; split; [lia|intros pre m []]|lia].
Qed.

(** The scan looks at a place exactly when no match it has reported
    reaches beyond the place. *)
Lemma looked_at_spec : forall n k bh ah,
  n <= length ah ->
  (looked_at p k bh ah n = true <->
   k <= n /\ forall pre m, In (pre, m) (spans p k bh ah) ->
                           ~ (length pre < length bh + n < length pre + length m)).
Proof.
  induction n as [|n IH]; intros k bh ah Hn.
  - cbn [looked_at]. rewrite Nat.eqb_eq. split.
    + intros ->. split; [lia|]. intros pre m H. apply spans_behind in H. lia.
    + lia.
  - destruct ah as [|x r]; [simpl in Hn; lia|].
    cbn [looked_at spans]. rewrite IH by (simpl in Hn; lia).
    rewrite skip_after_le. cbn [length]. split.
    + intros [[Hk He] Ht]. split; [lia|]. intros pre m H.
      apply in_app_iff in H as [H|H].
      * pose proof (He _ _ H). apply in_emitted in H as (_ & -> & _).
        rewrite length_rev. lia.
      * specialize (Ht _ _ H). lia.
    + intros [Hk Hs]. split; [split; [lia|]|].
      * intros pre m H. pose proof (Hs _ _ (proj2 (in_app_iff _ _ _) (or_introl H))) as C.
        apply in_emitted in H as (_ & -> & _). rewrite length_rev in C. lia.
      * intros pre m H. specialize (Hs _ _ (proj2 (in_app_iff _ _ _) (or_intror H))). lia.
Qed.

Lemma covered_false s pre :
  covered p s pre = false <->
  forall pre' m, In (pre', m) (spans p 0 [] s) ->
                 ~ (length pre' < length pre < length pre' + length m).
Proof.
  unfold covered. rewrite <- not_true_iff_false, existsb_exists. split.
  - intros H pre' m Hin C. apply H. exists (pre', m). split; [exact Hin|].
    unfold inside. cbn [fst snd].
    apply andb_true_iff. split; apply Nat.ltb_lt; lia.
  - intros H ([pre' m] & Hin & C). apply (H _ _ Hin).
    unfold inside in C. cbn [fst snd] in C.
    apply andb_true_iff in C as [C1 C2].
    apply Nat.ltb_lt in C1, C2. lia.
Qed.

(** [finditer] reports exactly the matches the engine finds at the places
    that lie within no reported match. *)
Lemma finditer_iff s v :
  In v (finditer p s) <->
  exists pre post, s = pre ++ v ++ post
                   /\ found_at p (rev pre) (v ++ post) v
                   /\ covered p s pre = false.
Proof.
  unfold finditer. rewrite <- map_snd_spans, in_map_iff. split.
  - intros ([pre w] & E & H). cbn [snd] in E. subst w.
    apply in_spans in H as (q & rest & E & Ep & L & F).
    cbn [rev app] in Ep. subst pre. rewrite app_nil_r in F.
    destruct (found_at_prefix _ _ _ _ F) as (post & ->).
    exists q, post. split; [exact E|]. split; [exact F|].
    apply covered_false. intros pre' m Hin.
    apply looked_at_spec in L as [_ L]; [|rewrite E, length_app; lia].
    exact (L _ _ Hin).
  - intros (pre & post & E & F & C). exists (pre, v). split; [reflexivity|].
    apply in_spans. exists pre, (v ++ post). split; [exact E|].
    split; [reflexivity|]. rewrite app_nil_r. split; [|exact F].
    apply looked_at_spec; [rewrite E, length_app; lia|].
    split; [lia|]. rewrite covered_false in C. exact C.
Qed.

End Spans.

(** C2, amended.  The engine matches the URL pattern at a position exactly
    when the text there has the shape: [http://] or [https://] in any case,
    one character that is neither white space nor one of [/ $ . ? #], one
    character of any kind but a line feed, then non-white-space characters
    up to the next white space or the end of the input.  The URL values are
    exactly the texts of this shape that stand in the refanged text at a
    place that lies within no match reported before; so a URL value holds
    no white space except possibly in its second place after the scheme. *)
Theorem url_matches_shape (text : string) (v : list ascii) :
  (forall bh post, found_at _URL_PATTERN bh (v ++ post) v <-> url_shape v post)
  /\ (mkIOC URL (text_of v) ∈ validate_iocs text <->
      exists pre post,
        refang (chars text) = pre ++ v ++ post
        /\ url_shape v post
        /\ covered _URL_PATTERN (refang (chars text)) pre = false).
Proof.
  split; [intros bh post; apply url_found_iff|].
  rewrite elem_of_url. split.
  - intros (m & Hin & E). apply text_of_inj in E. subst m.
    apply finditer_iff in Hin as (pre & post & E & F & C).
    exists pre, post. split; [exact E|]. split; [|exact C].
    apply (url_found_iff (rev pre)). exact F.
  - intros (pre & post & E & Sh & C). exists v. split; [|reflexivity].
    apply finditer_iff. exists pre, post. split; [exact E|]. split; [|exact C].
    apply url_found_iff. exact Sh.
Qed.

(** ** Concrete inputs *)

Lemma defanged_url_passes :
  refang (chars defanged_url) = chars "http://malicious.example.com/path"
  /\ finditer _IP_PATTERN (refang (chars defanged_url)) = []
  /\ finditer _DOMAIN_PATTERN (refang (chars defanged_url))
     = [chars "malicious.example.com"]
  /\ finditer _HASH_PATTERN (refang (chars defanged_url)) = []
  /\ finditer _URL_PATTERN (refang (chars defanged_url))
     = [chars "http://malicious.example.com/path"].
Proof. repeat split; vm_compute; reflexivity. Qed.

(** C3, amended.  For ["http://malicious[.]example[.]com/path"] the result
    holds the refanged URL and, as the domain pass runs over the same
    text, the host name as a DOMAIN: two elements. *)
Theorem defanged_url_result :
  validate_iocs defanged_url
  = {[ mkIOC URL "http://malicious.example.com/path";
       mkIOC DOMAIN "malicious.example.com" ]}.
Proof.
  rewrite validate_iocs_eq. unfold passes.
  destruct defanged_url_passes as (_ & -> & -> & -> & ->).
  cbn [foldl]. unfold add_as, add_domain. cbv zeta.
  replace (fullmatch _IP_PATTERN (lower (chars "malicious.example.com")))
    with false by (vm_compute; reflexivity).
  change (text_of (lower (chars "malicious.example.com")))
    with "malicious.example.com"%string.
  change (text_of (chars "http://malicious.example.com/path"))
    with "http://malicious.example.com/path"%string.
  set_solver.
Qed.

(** The result is not the URL alone: the claim as stated fails. *)
Lemma defanged_url_not_alone :
  mkIOC DOMAIN "malicious.example.com" ∈ validate_iocs defanged_url
  /\ validate_iocs defanged_url <> {[ mkIOC URL "http://malicious.example.com/path" ]}.
Proof.
  assert (H : mkIOC DOMAIN "malicious.example.com" ∈ validate_iocs defanged_url).
  { apply elem_of_domain. exists (chars "malicious.example.com").
    rewrite (proj1 (proj2 (proj2 defanged_url_passes))).
    split; [left; reflexivity|]. split; reflexivity. }
  split; [exact H|]. intros E. rewrite E in H.
  apply elem_of_singleton in H. discriminate H.
Qed.

Lemma four_domains_passes :
  refang (chars four_domains) = chars four_domains
  /\ finditer _IP_PATTERN (refang (chars four_domains)) = []
  /\ finditer _DOMAIN_PATTERN (refang (chars four_domains))
     = [chars "alpha.com"; chars "beta.org"; chars "gamma.net"; chars "delta.co"]
  /\ finditer _HASH_PATTERN (refang (chars four_domains)) = []
  /\ finditer _URL_PATTERN (refang (chars four_domains)) = [].
Proof. repeat split; vm_compute; reflexivity. Qed.

(** C7.  For ["alpha.com beta.org gamma.net delta.co"] the result is the
    four domains and nothing else. *)
Theorem four_domains_result :
  validate_iocs four_domains
  = {[ mkIOC DOMAIN "alpha.com"; mkIOC DOMAIN "beta.org";
       mkIOC DOMAIN "gamma.net"; mkIOC DOMAIN "delta.co" ]}.
Proof.
  rewrite validate_iocs_eq. unfold passes.
  destruct four_domains_passes as (_ & -> & -> & -> & ->).
  cbn [foldl]. unfold add_domain. cbv zeta.
  rewrite !domain_filter_idle
    by (apply (finditer_domain_shape (refang (chars four_domains)));
        rewrite (proj1 (proj2 (proj2 four_domains_passes)));
        simpl; tauto).
  change (text_of (lower (chars "alpha.com"))) with "alpha.com"%string.
  change (text_of (lower (chars "beta.org"))) with "beta.org"%string.
  change (text_of (lower (chars "gamma.net"))) with "gamma.net"%string.
  change (text_of (lower (chars "delta.co"))) with "delta.co"%string.
  set_solver.
Qed.

(** ** Refanging twice *)

Lemma refang_without s : has_bracketed_dot s = false -> refang s = s.
Proof.
  induction s as [|a t IH]; [reflexivity|].
  cbn [has_bracketed_dot refang].
  destruct t as [|b [|c r]].
  - reflexivity.
  - intros H. now rewrite IH.
  - destruct ((a =? "[") && (b =? ".") && (c =? "]")); [discriminate|].
    intros H. now rewrite IH.
Qed.

(** [validate_iocs] refangs once.  Refanging can bring a new ["[.]"]
    together, and then the two sides differ: the claim as stated fails. *)
Lemma refang_twice_differs :
  validate_iocs "a[[.]]com" <> validate_iocs (refanged "a[[.]]com").
Proof.
  intros E.
  assert (H : mkIOC DOMAIN "a.com" ∈ validate_iocs (refanged "a[[.]]com")).
  { apply elem_of_domain. exists (chars "a.com").
    split; [vm_compute; left; reflexivity|]. split; reflexivity. }
  rewrite <- E in H. apply elem_of_domain in H as (m & Hin & _).
  vm_compute in Hin. exact Hin.
Qed.

(** C1, amended.  When the refanged text holds no ["[.]"] any more,
    [validate_iocs] gives the same set for the text and for its refanged
    form. *)
Theorem refanged_same_result (text : string) :
  has_bracketed_dot (refang (chars text)) = false ->
  validate_iocs text = validate_iocs (refanged text).
Proof.
  intros H. rewrite !validate_iocs_eq. unfold refanged.
  rewrite chars_text_of, (refang_without _ H). reflexivity.
Qed.

Lemma refanged_same_result_witness :
  has_bracketed_dot (refang (chars "Visit example[.]com for info")) = false
  /\ validate_iocs "Visit example[.]com for info"
     = validate_iocs "Visit example.com for info".
Proof.
  split; [reflexivity|].
  exact (refanged_same_result "Visit example[.]com for info" eq_refl).
Defined.

(** ** Case of the values *)

Lemma finditer_occurs p t v : In v (finditer p t) -> occurs_in t v.
Proof. intros H. apply finditer_sound in H as (pre & post & E & _). exists pre, post. exact E. Qed.

(** C10.  A DOMAIN value is the lower-casing of a match of the domain
    pattern, so lower-casing it again changes nothing; a HASH or URL value
    is a match of its pattern taken as it stands in the refanged text,
    case included. *)
Theorem value_case (text : string) (i : IOC) :
  i ∈ validate_iocs text ->
  (type i = DOMAIN ->
   str_lower (value i) = value i
   /\ exists m, In m (finditer _DOMAIN_PATTERN (refang (chars text)))
                /\ chars (value i) = lower m)
  /\ (type i = HASH ->
      In (chars (value i)) (finditer _HASH_PATTERN (refang (chars text)))
      /\ occurs_in (refang (chars text)) (chars (value i)))
  /\ (type i = URL ->
      In (chars (value i)) (finditer _URL_PATTERN (refang (chars text)))
      /\ occurs_in (refang (chars text)) (chars (value i))).
Proof.
  destruct i as [t v]. cbn [type value]. intros H. split; [|split]; intros ->.
  - apply elem_of_domain in H as (m & Hin & _ & ->). split.
    + unfold str_lower. now rewrite chars_text_of, lower_idem.
    + exists m. split; [exact Hin|apply chars_text_of].
  - apply elem_of_hash in H as (m & Hin & ->). rewrite chars_text_of.
    split; [exact Hin|eapply finditer_occurs; exact Hin].
  - apply elem_of_url in H as (m & Hin & ->). rewrite chars_text_of.
    split; [exact Hin|eapply finditer_occurs; exact Hin].
Qed.

Lemma mixed_case_domain : mkIOC DOMAIN "example.com" ∈ validate_iocs mixed_case.
Proof.
  apply elem_of_domain. exists (chars "Example.COM").
  split; [vm_compute; left; reflexivity|]. split; reflexivity.
Qed.

Lemma value_case_witness :
  mkIOC DOMAIN "example.com" ∈ validate_iocs mixed_case
  /\ str_lower "example.com" = "example.com"%string.
Proof.
  split; [exact mixed_case_domain|].
  exact (proj1 (proj1 (value_case mixed_case (mkIOC DOMAIN "example.com")
                         mixed_case_domain) eq_refl)).
Defined.

(** Upper case survives in a URL and in a hash. *)
Example mixed_case_kept :
  mkIOC URL "HTTPS://Ex.Org/A" ∈ validate_iocs mixed_case
  /\ mkIOC HASH "D41D8CD98F00B204E9800998ECF8427E" ∈ validate_iocs mixed_case.
Proof.
  split.
  - apply elem_of_url. exists (chars "HTTPS://Ex.Org/A").
    split; [vm_compute; tauto|reflexivity].
  - apply elem_of_hash. exists (chars "D41D8CD98F00B204E9800998ECF8427E").
    split; [vm_compute; tauto|reflexivity].
Qed.

(** ** Totality *)

Lemma octets_loop_returns parts : octets_loop parts = Returns (octets_in_range parts).
Proof.
  induction parts as [|part rest IH]; [reflexivity|].
  cbn [octets_loop octets_in_range]. unfold int_call.
  destruct (py_int part) as [num|]; [|reflexivity].
  destruct ((num <? 0) || (255 <? num))%Z; [reflexivity|exact IH].
Qed.

Lemma _validate_ip_returns ip : _validate_ip_call ip = Returns (_validate_ip ip).
Proof.
  unfold _validate_ip_call, _validate_ip.
  destruct (negb _); [reflexivity|apply octets_loop_returns].
Qed.

Lemma for_each_add_ip values : forall results,
  for_each add_ip_call values results = Returns (foldl add_ip results values).
Proof.
  induction values as [|value rest IH]; intros results; [reflexivity|].
  cbn [for_each foldl]. unfold add_ip_call at 1.
  rewrite _validate_ip_returns. cbn [bind]. rewrite IH. reflexivity.
Qed.

Lemma validate_iocs_returns text :
  validate_iocs_call (PyStr text) = Returns (validate_iocs text).
Proof.
  destruct text as [|x text]; [reflexivity|].
  unfold validate_iocs_call, validate_iocs. cbn [truth negb replace_call bind].
  rewrite for_each_add_ip. reflexivity.
Qed.

(** C9.  Called on a string, [validate_iocs] returns and never raises:
    the one exception that can arise, [ValueError] from [int], is caught
    where it arises and turned into [False], so that [_validate_ip] returns
    on every string as well.  On the empty string, as on every object that
    counts as false ([None], [0]), it returns the empty set before the text
    is touched.  It raises only on an object that counts as true and is no
    string. *)
Theorem validate_iocs_total :
  (forall text : string, validate_iocs_call (PyStr text) = Returns (validate_iocs text))
  /\ (forall text : object, truth text = false -> validate_iocs_call text = Returns ∅)
  /\ (forall ip : list ascii, _validate_ip_call ip = Returns (_validate_ip ip))
  /\ (forall (text : object) (e : exception),
        validate_iocs_call text = Raises e ->
        exists n, text = PyInt n /\ n <> 0%Z /\ e = AttributeError).
Proof.
  split; [exact validate_iocs_returns|]. split; [|split].
  - intros text F. unfold validate_iocs_call. rewrite F. reflexivity.
  - exact _validate_ip_returns.
  - intros [s| |n] e H.
    + rewrite validate_iocs_returns in H. discriminate.
    + discriminate.
    + unfold validate_iocs_call in H. cbn [truth] in H.
      destruct (Z.eqb_spec n 0) as [->|Hn]; cbn [negb] in H; [discriminate|].
      cbn [replace_call bind] in H. injection H as <-. eauto.
Qed.

(** Without its [except] clause [_validate_ip] would raise on a part that
    is no number; no candidate of the IP pattern has such a part. *)
Remark int_call_raises : int_call (chars "1o") = Raises ValueError.
Proof. reflexivity. Qed.

Remark validate_iocs_call_raises : validate_iocs_call (PyInt 5) = Raises AttributeError.
Proof. reflexivity. Qed.

(** ** The repository's tests *)

Ltac found_in_text v :=
  exists (chars v); repeat split; try reflexivity; vm_compute; tauto.

Example test_ipv4 :
  mkIOC IP "192.168.1.1" ∈ validate_iocs "Suspicious IP 192.168.1.1 found".
Proof. apply elem_of_ip. found_in_text "192.168.1.1"%string. Qed.

Example test_domain :
  mkIOC DOMAIN "example.com" ∈ validate_iocs "Visit example.com for info".
Proof. apply elem_of_domain. found_in_text "example.com"%string. Qed.

Example test_hash :
  mkIOC HASH "d41d8cd98f00b204e9800998ecf8427e"
  ∈ validate_iocs "Hash d41d8cd98f00b204e9800998ecf8427e detected".
Proof. apply elem_of_hash. found_in_text "d41d8cd98f00b204e9800998ecf8427e"%string. Qed.

Example test_url :
  mkIOC URL "http://malicious.example.com/path"
  ∈ validate_iocs "http://malicious.example.com/path".
Proof. apply elem_of_url. found_in_text "http://malicious.example.com/path"%string. Qed.

Example test_defanged_ipv4 :
  mkIOC IP "192.168.1.1" ∈ validate_iocs "Suspicious IP 192[.]168[.]1[.]1 found".
Proof. apply elem_of_ip. found_in_text "192.168.1.1"%string. Qed.

Example test_defanged_domain :
  mkIOC DOMAIN "example.com" ∈ validate_iocs "Visit example[.]com for info".
Proof. apply elem_of_domain. found_in_text "example.com"%string. Qed.

(** ** Remarks on the model *)

(** A run reported as a hash is maximal: no hexadecimal digit stands
    directly before or after it. *)
Lemma hash_run_maximal t v :
  hash_run t v ->
  exists pre post,
    t = pre ++ v ++ post
    /\ match rev pre with x :: _ => is_hex x = false | [] => True end
    /\ match post with x :: _ => is_hex x = false | [] => True end.
Proof.
  intros (pre & post & E & _ & _ & Wb & Wa). exists pre, post.
  split; [exact E|]. unfold word_before, word_behind, word_after in *. split.
  - destruct (rev pre) as [|x ?]; [exact I|].
    destruct (is_hex x) eqn:H; [|reflexivity].
    rewrite (is_hex_word _ H) in Wb. discriminate.
  - destruct post as [|x ?]; [exact I|].
    destruct (is_hex x) eqn:H; [|reflexivity].
    rewrite (is_hex_word _ H) in Wa. discriminate.
Qed.

(** None of the four patterns matches the empty string, so the rule of
    [scan] for an empty match is never used. *)
Lemma patterns_consume p bh ah v :
  In p [_IP_PATTERN; _DOMAIN_PATTERN; _HASH_PATTERN; _URL_PATTERN] ->
  found_at p bh ah v -> v <> [].
Proof.
  intros [<-|[<-|[<-|[<-|[]]]]] H.
  - apply found_in_ends in H as (c' & H & R).
    apply ip_ends in H as (w & Q & R' & _).
    rewrite (reaches_same_text _ _ _ _ R R').
    apply dotted_quad_last in Q as (w' & x & -> & _). now destruct w'.
  - apply found_in_ends in H as (c' & H & R).
    apply domain_ends in H as (w & Q & R').
    rewrite (reaches_same_text _ _ _ _ R R').
    apply domain_shape_last in Q as (w' & x & -> & _). now destruct w'.
  - destruct (found_at_prefix _ _ _ _ H) as (post & ->).
    apply hash_found_iff in H as (_ & L & _).
    apply nonempty_length. destruct L as [->|[->| ->]]; lia.
  - destruct (found_at_prefix _ _ _ _ H) as (post & ->).
    apply url_found_iff in H as (scheme & x & y & tail & -> & _).
    now destruct scheme.
Qed.

Lemma url_matches_shape_witness :
  mkIOC URL "http://cd" ∈ validate_iocs "http://ab http://cd"
  /\ mkIOC URL "http://ab" ∈ validate_iocs "http://ab http://cd"
  /\ url_shape (chars "http://a b") [].
Proof.
  split; [|split].
  - apply (proj2 (url_matches_shape "http://ab http://cd" (chars "http://cd"))).
    exists (chars "http://ab "), []. split; [reflexivity|]. split; [|reflexivity].
    exists (chars "http://"), "c", "d", []. repeat split; try discriminate.
    left; reflexivity.
  - apply (proj2 (url_matches_shape "http://ab http://cd" (chars "http://ab"))).
    exists [], (chars " http://cd"). split; [reflexivity|]. split; [|reflexivity].
    exists (chars "http://"), "a", "b", []. repeat split; try discriminate.
    left; reflexivity.
  - apply (proj1 (url_matches_shape "http://a b" (chars "http://a b")) [] []).
    exists (Cursor (rev (chars "http://a b")) []). split; reflexivity.
Defined.

(** * Further properties *)

(** ** Refanging *)

Lemma refang_cases (P : list ascii -> Prop) :
  P [] ->
  (forall a, P [a]) ->
  (forall a b, P [b] -> P [a; b]) ->
  (forall a b c r, P r -> P (b :: c :: r) -> P (a :: b :: c :: r)) ->
  forall s, P s.
Proof.
  intros H0 H1 H2 H3 s.
  assert (K : forall n s, length s <= n -> P s).
  { induction n as [|n IH]; intros s' L.
    - destruct s'; [exact H0|simpl in L; lia].
    - destruct s' as [|a [|b [|c r]]];
        [exact H0|apply H1|apply H2, H1|apply H3; apply IH; simpl in *; lia]. }
  apply (K (length s)). lia.
Qed.

Lemma refang_length s : length (refang s) <= length s.
Proof.
  induction s as [|a|a b IH|a b c r IHr IHt] using refang_cases; simpl; try lia.
  destruct ((a =? "[") && (b =? ".") && (c =? "]")); simpl in *; lia.
Qed.

Lemma refang_shorter s :
  has_bracketed_dot s = true -> length (refang s) < length s.
Proof.
  induction s as [|a|a b IH|a b c r IHr IHt] using refang_cases;
    cbn [has_bracketed_dot refang]; try discriminate.
  destruct ((a =? "[") && (b =? ".") && (c =? "]")); cbn [orb length].
  - intros _. pose proof (refang_length r). lia.
  - intros H. apply IHt in H. simpl in H. lia.
Qed.

(** X1.  [text.replace("[.]", ".")] leaves a text as it is exactly when the
    text holds no ["[.]"]; a text that holds one comes out strictly
    shorter, and no text comes out longer. *)
Theorem refang_fixed_iff (s : list ascii) :
  (refang s = s <-> has_bracketed_dot s = false)
  /\ (has_bracketed_dot s = true -> length (refang s) < length s)
  /\ length (refang s) <= length s.
Proof.
  split; [|split; [apply refang_shorter|apply refang_length]].
  split; [|apply refang_without].
  intros E. destruct (has_bracketed_dot s) eqn:H; [|reflexivity].
  apply refang_shorter in H. rewrite E in H. lia.
Qed.

Lemma refang_fixed_iff_witness :
  has_bracketed_dot (chars "a[.]b") = true
  /\ length (refang (chars "a[.]b")) < length (chars "a[.]b").
Proof.
  split; [reflexivity|].
  exact (proj1 (proj2 (refang_fixed_iff (chars "a[.]b"))) eq_refl).
Defined.

Lemma refang_across a x b :
  (x =? "[") = false -> (x =? ".") = false -> (x =? "]") = false ->
  refang (a ++ x :: b) = refang a ++ x :: refang b.
Proof.
  intros H1 H2 H3.
  induction a as [|a1|a1 a2 IH|a1 a2 a3 r IHr IHt] using refang_cases.
  - cbn [app refang]. destruct b as [|b1 [|b2 r]]; [reflexivity..|].
    now rewrite H1.
  - cbn [app refang]. cbn [app] in *. destruct b as [|b1 r].
    + reflexivity.
    + rewrite H2, andb_false_r. cbn [andb].
      change (refang (x :: b1 :: r)) with (refang ([] ++ x :: b1 :: r)).
      f_equal.
      destruct r as [|b2 r]; [reflexivity|]. cbn [app refang]. now rewrite H1.
  - change (refang ([a1; a2] ++ x :: b)) with
      (if (a1 =? "[") && (a2 =? ".") && (x =? "]")
       then "." :: refang b else a1 :: refang ([a2] ++ x :: b)).
    rewrite H3, andb_false_r, IH. reflexivity.
  - change (refang ((a1 :: a2 :: a3 :: r) ++ x :: b)) with
      (if (a1 =? "[") && (a2 =? ".") && (a3 =? "]")
       then "." :: refang (r ++ x :: b)
       else a1 :: refang ((a2 :: a3 :: r) ++ x :: b)).
    change (refang (a1 :: a2 :: a3 :: r)) with
      (if (a1 =? "[") && (a2 =? ".") && (a3 =? "]")
       then "." :: refang r else a1 :: refang (a2 :: a3 :: r)).
    rewrite IHr, IHt.
    destruct ((a1 =? "[") && (a2 =? ".") && (a3 =? "]")); reflexivity.
Qed.

(** X2.  Refanging works piece by piece: across a character that is none
    of [[], [.] and []], the text before it and the text after it are
    refanged independently. *)
Theorem refang_app_sep (a : list ascii) (x : ascii) (b : list ascii) :
  x <> "[" -> x <> "." -> x <> "]" ->
  refang (a ++ x :: b) = refang a ++ x :: refang b.
Proof.
  intros H1 H2 H3.
  apply refang_across.
  - apply Ascii.eqb_neq. exact H1.
  - apply Ascii.eqb_neq. exact H2.
  - apply Ascii.eqb_neq. exact H3.
Qed.

Lemma refang_app_sep_witness :
  refang (chars "a[.]b c[.]d") = refang (chars "a[.]b") ++ " " :: refang (chars "c[.]d").
Proof.
  apply (refang_app_sep (chars "a[.]b") " " (chars "c[.]d")); discriminate.
Defined.

(** ** The IP pass: where a value stands in the text *)

Lemma reaches_split c m1 m2 c' :
  reaches c (m1 ++ m2) c' ->
  exists cm, reaches c m1 cm /\ reaches cm m2 c'.
Proof.
  intros [A B]. exists (Cursor (rev m1 ++ behind c) (m2 ++ ahead c')).
  split; split; simpl.
  - rewrite A. symmetry. apply app_assoc.
  - reflexivity.
  - reflexivity.
  - rewrite B, rev_app_distr. symmetry. apply app_assoc.
Qed.

Lemma reaches_prefix bh m r : reaches (Cursor bh (m ++ r)) m (Cursor (rev m ++ bh) r).
Proof. split; reflexivity. Qed.

Lemma ip_digits_intro c m c' :
  digits13 m -> reaches c m c' ->
  In c' (ends false (Rep 1 (Some 3) (Class false [CDigit])) c).
Proof.
  intros [L F] R. apply in_ends_class_rep. exists m.
  split; [exact L|]. split; [|exact R].
  rewrite <- F. apply forallb_pointwise. apply class_digit.
Qed.

Lemma ip_group_intro c m c' :
  digits13 m -> reaches c (m ++ ["."]) c' ->
  In c' (ends false (Cat (Rep 1 (Some 3) (Class false [CDigit])) (Lit ".")) c).
Proof.
  intros D R. apply reaches_split in R as (cm & R1 & R2).
  apply in_ends_cat. exists cm. split; [apply (ip_digits_intro _ m); assumption|].
  apply in_ends_lit. exists ".". split; [reflexivity|exact R2].
Qed.

Lemma digits13_nonempty m : digits13 m -> m <> [].
Proof. intros [L _]. apply nonempty_length. lia. Qed.

Lemma word_after_digit v post :
  v <> [] -> forallb is_digit v = true -> word_after (v ++ post) = true.
Proof.
  destruct v as [|x v]; [congruence|]. simpl. intros _ H.
  apply andb_true_iff in H as [E _]. apply is_digit_word. exact E.
Qed.

Lemma dotted_quad_word_after v post : dotted_quad v -> word_after (v ++ post) = true.
Proof.
  intros (a & b & c & d & -> & Da & _). rewrite <- app_assoc.
  apply word_after_digit; [apply digits13_nonempty; exact Da|apply Da].
Qed.

Lemma dotted_quad_word_behind v bh : dotted_quad v -> word_behind (rev v ++ bh) = true.
Proof.
  intros Q. apply dotted_quad_last in Q as (v' & x & -> & E).
  rewrite word_behind_snoc. apply is_digit_word. exact E.
Qed.

(** The engine can match a dotted quad that stands between two word
    boundaries. *)
Lemma ip_in_ends_complete bh v post :
  dotted_quad v -> word_behind bh = false -> word_after post = false ->
  exists c', In c' (ends false (expr _IP_PATTERN) (Cursor bh (v ++ post)))
             /\ reaches (Cursor bh (v ++ post)) v c'.
Proof.
  intros Q Wb Wa.
  pose proof (dotted_quad_word_after v post Q) as Wv.
  pose proof (dotted_quad_word_behind v bh Q) as Wl.
  destruct Q as (a & b & c & d & E & Da & Db & Dc & Dd).
  set (c0 := Cursor bh (v ++ post)).
  set (c1 := Cursor (rev (a ++ ["."]) ++ behind c0)
                    (b ++ "." :: c ++ "." :: d ++ post)).
  set (c2 := Cursor (rev (b ++ ["."]) ++ behind c1) (c ++ "." :: d ++ post)).
  set (c3 := Cursor (rev (c ++ ["."]) ++ behind c2) (d ++ post)).
  set (c4 := Cursor (rev d ++ behind c3) post).
  assert (R1 : reaches c0 (a ++ ["."]) c1).
  { split; [|reflexivity]. simpl. rewrite E.
    repeat (rewrite <- ?app_assoc; simpl). reflexivity. }
  assert (R2 : reaches c1 (b ++ ["."]) c2).
  { split; [|reflexivity]. simpl. repeat (rewrite <- ?app_assoc; simpl). reflexivity. }
  assert (R3 : reaches c2 (c ++ ["."]) c3).
  { split; [|reflexivity]. simpl. repeat (rewrite <- ?app_assoc; simpl). reflexivity. }
  assert (R4 : reaches c3 d c4) by (split; reflexivity).
  assert (R : reaches c0 v c4).
  { pose proof (reaches_trans _ _ _ _ _ R1
                  (reaches_trans _ _ _ _ _ R2
                     (reaches_trans _ _ _ _ _ R3 R4))) as R.
    replace v with ((a ++ ["."]) ++ (b ++ ["."]) ++ (c ++ ["."]) ++ d); [exact R|].
    rewrite E. repeat (rewrite <- ?app_assoc; simpl). reflexivity. }
  exists c4. split; [|exact R].
  unfold _IP_PATTERN, cat. cbn [expr foldr].
  apply in_ends_cat. exists c0. split.
  { apply in_ends_wordb. split; [|reflexivity].
    rewrite at_boundary_eq. unfold c0. cbn [ahead behind]. now rewrite Wb, Wv. }
  apply in_ends_cat. exists c3. split.
  { cbn [ends]. apply rep_spec. exists 3. split; [lia|].
    pose proof (digits13_nonempty _ Da). pose proof (digits13_nonempty _ Db).
    pose proof (digits13_nonempty _ Dc).
    apply (chain_round _ _ _ c1);
      [apply (ip_group_intro _ a); assumption
      |rewrite (reaches_length _ _ _ R1), length_app; simpl; lia|].
    apply (chain_round _ _ _ c2);
      [apply (ip_group_intro _ b); assumption
      |rewrite (reaches_length _ _ _ R2), length_app; simpl; lia|].
    apply (chain_round _ _ _ c3);
      [apply (ip_group_intro _ c); assumption
      |rewrite (reaches_length _ _ _ R3), length_app; simpl; lia|].
    constructor. }
  apply in_ends_cat. exists c4. split; [apply (ip_digits_intro _ d); assumption|].
  apply in_ends_wordb. split; [|reflexivity].
  rewrite at_boundary_eq.
  destruct R as [_ B]. rewrite B. unfold c4 at 1, c0. cbn [ahead behind].
  now rewrite Wl, Wa.
Qed.

Lemma digit_run_unique m : forall m' r r',
  forallb is_digit m = true -> forallb is_digit m' = true ->
  digit_after r = false -> digit_after r' = false ->
  m ++ r = m' ++ r' -> m = m' /\ r = r'.
Proof.
  induction m as [|x m IH]; intros [|x' m'] r r' F F' D D' E; simpl in *.
  - auto.
  - subst r. simpl in D. apply andb_true_iff in F' as [F' _]. congruence.
  - subst r'. simpl in D'. apply andb_true_iff in F as [F _]. congruence.
  - injection E as -> E.
    apply andb_true_iff in F as [_ F]. apply andb_true_iff in F' as [_ F'].
    destruct (IH _ _ _ F F' D D' E) as [-> ->]. auto.
Qed.

Lemma word_after_digit_after post : word_after post = false -> digit_after post = false.
Proof.
  destruct post as [|x ?]; simpl; [reflexivity|]. intros W.
  destruct (is_digit x) eqn:E; [|reflexivity].
  rewrite (is_digit_word _ E) in W. discriminate.
Qed.

(** From one position at most one dotted quad runs up to a word boundary. *)
Lemma dotted_quad_unique v w post post' :
  dotted_quad v -> dotted_quad w ->
  word_after post = false -> word_after post' = false ->
  v ++ post = w ++ post' -> v = w.
Proof.
  intros (a & b & c & d & -> & Da & Db & Dc & Dd)
         (a' & b' & c' & d' & -> & Da' & Db' & Dc' & Dd') W W' E.
  apply word_after_digit_after in W, W'.
  repeat (rewrite <- ?app_assoc in E; simpl in E).
  apply digit_run_unique in E as [<- E]; [|apply Da|apply Da'|reflexivity..].
  injection E as E.
  apply digit_run_unique in E as [<- E]; [|apply Db|apply Db'|reflexivity..].
  injection E as E.
  apply digit_run_unique in E as [<- E]; [|apply Dc|apply Dc'|reflexivity..].
  injection E as E.
  apply digit_run_unique in E as [<- E]; [|apply Dd|apply Dd'|assumption..].
  reflexivity.
Qed.

(** At a position of the subject the engine's match of the IP pattern is
    [v] exactly when [v] is a dotted quad with no word character directly
    before or after it. *)
Lemma ip_found_iff bh v post :
  found_at _IP_PATTERN bh (v ++ post) v <->
  dotted_quad v /\ word_behind bh = false /\ word_after post = false.
Proof.
  assert (Sound : forall c',
            In c' (ends false (expr _IP_PATTERN) (Cursor bh (v ++ post))) ->
            forall w, reaches (Cursor bh (v ++ post)) w c' ->
            dotted_quad w /\ word_behind bh = false /\ word_after (ahead c') = false).
  { intros c' H w R.
    apply ip_ends in H as (w' & Q & R' & B & B').
    rewrite (reaches_same_text _ _ _ _ R R'). split; [exact Q|].
    rewrite at_boundary_eq in B, B'. cbn [ahead behind] in B.
    destruct R' as [A Bh]. cbn [ahead behind] in A, Bh.
    rewrite A, (dotted_quad_word_after _ _ Q) in B.
    rewrite Bh, (dotted_quad_word_behind _ _ Q) in B'.
    split; [destruct (word_behind bh)|destruct (word_after (ahead c'))];
      (discriminate || reflexivity). }
  split.
  - intros H. apply found_in_ends in H as (c' & H & R).
    destruct (Sound c' H v R) as (Q & Wb & Wa).
    destruct R as [A _]. cbn [ahead] in A. apply app_inv_head in A.
    rewrite <- A in Wa. auto.
  - intros (Q & Wb & Wa).
    destruct (ip_in_ends_complete bh v post Q Wb Wa) as (c' & H & R).
    destruct (match_at _IP_PATTERN (Cursor bh (v ++ post))) as [c''|] eqn:M.
    + exists c''. split; [exact M|].
      pose proof (match_at_In _ _ _ M) as H''.
      destruct (ends_reaches _ _ _ _ H'') as (w & R'').
      destruct (Sound c'' H'' w R'') as (Q'' & _ & Wa'').
      rewrite (reaches_matched _ _ _ R'').
      symmetry. destruct R'' as [A'' _]. cbn [ahead] in A''.
      eapply dotted_quad_unique; [exact Q|exact Q''|exact Wa|exact Wa''|exact A''].
    + unfold match_at in M. apply head_None in M.
      change (ignorecase _IP_PATTERN) with false in M.
      rewrite M in H. destruct H.
Qed.

Lemma Forall_four {A} (P : A -> Prop) a b c d :
  Forall P [a; b; c; d] <-> P a /\ P b /\ P c /\ P d.
Proof.
  split.
  - intros H. inversion H as [|? ? Ha H1]; subst.
    inversion H1 as [|? ? Hb H2]; subst.
    inversion H2 as [|? ? Hc H3]; subst.
    inversion H3 as [|? ? Hd _]; subst. auto.
  - intros (Ha & Hb & Hc & Hd). repeat constructor; assumption.
Qed.

Lemma four_octets_digits v :
  dotted_quad v ->
  _validate_ip v = true <->
  exists a b c d,
    v = a ++ "." :: b ++ "." :: c ++ "." :: d
    /\ Forall (fun part => digits13 part /\ (decimal part <= 255)%Z) [a; b; c; d].
Proof.
  intros (a & b & c & d & E & Da & Db & Dc & Dd).
  assert (Sp : split "." v = [a; b; c; d]).
  { rewrite E. rewrite !split_app by (apply digits13_no_dot; assumption).
    rewrite split_one by (apply digits13_no_dot; assumption). reflexivity. }
  rewrite _validate_ip_spec. unfold four_octets. rewrite Sp. split.
  - intros (a0 & b0 & c0 & d0 & [= <- <- <- <-] & Ha & Hb & Hc & Hd).
    exists a, b, c, d. split; [exact E|].
    apply Forall_four.
    split; [|split; [|split]];
      (split; [assumption|apply octet_digits; assumption]).
  - intros (a0 & b0 & c0 & d0 & E0 & H).
    apply Forall_four in H as ([Da0 La] & [Db0 Lb] & [Dc0 Lc] & [Dd0 Ld]).
    assert (Sp0 : split "." v = [a0; b0; c0; d0]).
    { rewrite E0. rewrite !split_app by (apply digits13_no_dot; assumption).
      rewrite split_one by (apply digits13_no_dot; assumption). reflexivity. }
    rewrite Sp in Sp0. injection Sp0 as <- <- <- <-.
    exists a, b, c, d. split; [reflexivity|].
    split; [|split; [|split]]; apply octet_digits; assumption.
Qed.

(** X3.  Every value reported under IP stands in the refanged text as four
    groups of one to three digits joined by dots, each group at most 255 in
    value, with no word character (letter, digit or underscore) directly
    before it or directly after it. *)
Theorem ip_value_bounded (text v : string) :
  mkIOC IP v ∈ validate_iocs text ->
  exists pre post a b c d,
    refang (chars text) = pre ++ chars v ++ post
    /\ chars v = a ++ "." :: b ++ "." :: c ++ "." :: d
    /\ Forall (fun part => digits13 part /\ (decimal part <= 255)%Z) [a; b; c; d]
    /\ word_before pre = false /\ word_after post = false.
Proof.
  rewrite elem_of_ip. intros (w & Hin & Hok & ->). rewrite chars_text_of.
  apply finditer_sound in Hin as (pre & post & E & H).
  apply ip_found_iff in H as (Q & Wb & Wa).
  apply (four_octets_digits _ Q) in Hok as (a & b & c & d & Ev & F).
  exists pre, post, a, b, c, d. auto.
Qed.

Lemma ip_value_bounded_witness :
  mkIOC IP "10.0.0.1" ∈ validate_iocs "host 10.0.0.1 at example.com"
  /\ exists pre post, refang (chars "host 10.0.0.1 at example.com")
                      = pre ++ chars "10.0.0.1" ++ post
                      /\ word_before pre = false /\ word_after post = false.
Proof.
  assert (H : mkIOC IP "10.0.0.1" ∈ validate_iocs "host 10.0.0.1 at example.com").
  { apply elem_of_ip. exists (chars "10.0.0.1").
    split; [vm_compute; left; reflexivity|]. split; reflexivity. }
  split; [exact H|].
  destruct (ip_value_bounded _ _ H) as (pre & post & a & b & c & d & E & _ & _ & Wb & Wa).
  exists pre, post. auto.
Defined.

Lemma dotted_quad_chars v :
  dotted_quad v -> forallb (fun x => is_digit x || (x =? ".")) v = true.
Proof.
  assert (D : forall m, digits13 m ->
                forallb (fun x => is_digit x || (x =? ".")) m = true).
  { intros m [_ F]. eapply forallb_impl; [|exact F].
    intros x ->. reflexivity. }
  intros (a & b & c & d & -> & Da & Db & Dc & Dd).
  repeat (rewrite forallb_app; cbn [forallb]).
  rewrite !D by assumption. reflexivity.
Qed.

(** An earlier match of the IP pattern cannot run into a place whose left
    neighbour is neither a word character nor a dot. *)
Lemma ip_no_overrun p1 p2 rest w :
  p2 <> [] -> word_before (p1 ++ p2) = false -> dot_before (p1 ++ p2) = false ->
  found_at _IP_PATTERN (rev p1) (p2 ++ rest) w -> length w <= length p2.
Proof.
  intros Hne Wb Db H.
  destruct (found_at_prefix _ _ _ _ H) as (post' & A).
  rewrite A in H. apply ip_found_iff in H as (Q & _ & _).
  apply dotted_quad_chars in Q.
  destruct (Nat.le_gt_cases (length w) (length p2)) as [|Hgt]; [assumption|exfalso].
  assert (P : p2 = take (length p2) w).
  { apply (f_equal (take (length p2))) in A.
    rewrite take_app_length in A.
    etransitivity; [exact A|]. apply take_app_le. lia. }
  destruct (exists_last Hne) as (p2' & y & E).
  assert (Hy : is_digit y || (y =? ".") = true).
  { apply (forallb_last (fun x => is_digit x || (x =? ".")) p2').
    rewrite <- E, P. apply forallb_take. exact Q. }
  unfold word_before, dot_before in Wb, Db. rewrite E, app_assoc in Wb, Db.
  rewrite rev_app_distr in Db. cbn [rev app] in Db.
  rewrite <- (app_nil_r (rev _)) in Wb. rewrite word_behind_snoc in Wb.
  apply orb_true_iff in Hy as [Hy|Hy]; [|congruence].
  rewrite (is_digit_word _ Hy) in Wb. discriminate.
Qed.

(** X4.  A dotted quad of four groups of one to three digits, each at most
    255, that stands in the refanged text with no word character and no
    dot directly before it and no word character directly after it, is
    reported under IP. *)
Theorem ip_occurrence_reported (text : string) (pre v post : list ascii) :
  refang (chars text) = pre ++ v ++ post ->
  dotted_quad v -> _validate_ip v = true ->
  word_before pre = false -> dot_before pre = false -> word_after post = false ->
  mkIOC IP (text_of v) ∈ validate_iocs text.
Proof.
  intros E Q Hok Wb Db Wa. apply elem_of_ip. exists v.
  split; [|auto]. rewrite E. apply finditer_complete.
  - intros p1 p2 w -> Hne H. eapply ip_no_overrun; eassumption.
  - apply ip_found_iff. auto.
Qed.

Lemma ip_occurrence_reported_witness :
  mkIOC IP "192.168.1.1" ∈ validate_iocs "Suspicious IP 192[.]168[.]1[.]1 found".
Proof.
  apply (ip_occurrence_reported "Suspicious IP 192[.]168[.]1[.]1 found"
           (chars "Suspicious IP ") (chars "192.168.1.1") (chars " found"));
    try reflexivity.
  exists (chars "192"), (chars "168"), (chars "1"), (chars "1").
  repeat split; simpl; lia.
Defined.

(** ** The domain pass: the make-up of a value *)

Lemma lit_dot_ci x : lit_test true "." x = true -> x = ".".
Proof. each_char x; vm_compute; congruence. Qed.

Lemma domain_label c c1 :
  In c1 (ends true (Cat (Rep 1 None (Class false label_chars)) (Lit ".")) c) ->
  exists l, l <> [] /\ forallb is_label l = true /\ reaches c (l ++ ["."]) c1.
Proof.
  intros H. apply in_ends_cat in H as (cm & H1 & H2).
  apply in_ends_class_rep_unbounded in H1 as (l & L & F & R1).
  apply in_ends_lit in H2 as (x & E & R2). apply lit_dot_ci in E. subst x.
  exists l. split; [apply nonempty_length; lia|]. split.
  - rewrite <- F. apply forallb_pointwise. intros x. symmetry. apply class_label.
  - eapply reaches_trans; eassumption.
Qed.

Lemma domain_labels k c c' :
  chain (ends true (Cat (Rep 1 None (Class false label_chars)) (Lit "."))) k c c' ->
  exists labels,
    length labels = k
    /\ Forall (fun l => l <> [] /\ forallb is_label l = true) labels
    /\ reaches c (concat (map (fun l => l ++ ["."]) labels)) c'.
Proof.
  induction 1 as [c|k c c1 c' H1 _ _ (labels & L & F & R)].
  - exists []. split; [reflexivity|]. split; [constructor|apply reaches_refl].
  - apply domain_label in H1 as (l & Hne & Fl & R1).
    exists (l :: labels). split; [simpl; congruence|]. split.
    + constructor; auto.
    + simpl. eapply reaches_trans; eassumption.
Qed.

Lemma in_ends_not_behind_spec ic ng its c c' :
  In c' (ends ic (NotBehind ng its) c) ->
  c' = c /\ match behind c with
            | x :: _ => class_test ic ng its x = false
            | [] => True
            end.
Proof.
  simpl. destruct (behind c) as [|x ?].
  - intros [<-|[]]. auto.
  - destruct (class_test ic ng its x); [intros []|intros [<-|[]]; auto].
Qed.

Lemma ends_class_empty ic ng its c :
  ends ic (Class ng its) c = [] ->
  match ahead c with
  | x :: _ => class_test ic ng its x = false
  | [] => True
  end.
Proof.
  simpl. unfold eat. destruct (ahead c) as [|x ?]; [auto|].
  destruct (class_test ic ng its x); [discriminate|reflexivity].
Qed.

(** Whatever the domain pattern matches is labels with their dots and a
    last label of letters, with no label character on either side. *)
Lemma domain_ends_full c c' :
  In c' (ends true (expr _DOMAIN_PATTERN) c) ->
  exists m, domain_text m /\ reaches c m c'
            /\ label_behind (behind c) = false /\ label_after (ahead c') = false.
Proof.
  unfold _DOMAIN_PATTERN, cat. cbn [expr foldr]. intros H.
  apply in_ends_cat in H as (c0 & H0 & H).
  apply in_ends_not_behind_spec in H0 as [-> Hb].
  apply in_ends_cat in H as (c1 & H1 & H).
  apply in_ends_cat in H as (c2 & H2 & H).
  apply in_ends_not_ahead in H as [Ha ->].
  apply ends_class_empty in Ha.
  cbn [ends] in H1. apply rep_spec in H1 as (k & Hk & Hc).
  apply domain_labels in Hc as (labels & L & Fl & R1).
  apply in_ends_class_rep_unbounded in H2 as (tld & Lt & Ft & R2).
  exists (concat (map (fun l => l ++ ["."]) labels) ++ tld).
  split; [|split; [eapply reaches_trans; eassumption|split]].
  - exists labels, tld. split; [apply nonempty_length; lia|].
    split; [exact Fl|]. split; [exact Lt|]. split; [|reflexivity].
    rewrite <- Ft. apply forallb_pointwise. intros x. symmetry. apply class_alpha.
  - unfold label_behind. destruct (behind c) as [|x ?]; [reflexivity|].
    now rewrite <- class_label.
  - unfold label_after. destruct (ahead c2) as [|x ?]; [reflexivity|].
    now rewrite <- class_label.
Qed.

Lemma is_label_lower x : is_label (lower_char x) = is_label x.
Proof. each_char x; reflexivity. Qed.

Lemma is_alpha_lower x : is_alpha (lower_char x) = is_alpha x.
Proof. each_char x; reflexivity. Qed.

Lemma forallb_lower (f : ascii -> bool) l :
  (forall x, f (lower_char x) = f x) -> forallb f (lower l) = forallb f l.
Proof.
  intros E. induction l as [|x l IH]; simpl; [reflexivity|]. now rewrite E, IH.
Qed.

Lemma lower_labels labels :
  lower (concat (map (fun l => l ++ ["."]) labels))
  = concat (map (fun l => l ++ ["."]) (map lower labels)).
Proof.
  induction labels as [|l labels IH]; [reflexivity|].
  simpl. unfold lower in *. rewrite !map_app, IH. reflexivity.
Qed.

(** Lower-casing keeps the make-up of a domain. *)
Lemma domain_text_lower m : domain_text m -> domain_text (lower m).
Proof.
  intros (labels & tld & Hne & Fl & Lt & Ft & ->).
  exists (map lower labels), (lower tld).
  split; [destruct labels; [congruence|discriminate]|].
  split; [|split; [unfold lower; now rewrite length_map|split]].
  - clear Hne. induction Fl as [|l ls [Hl F] _ IH]; simpl; constructor; [|exact IH].
    split.
    + destruct l; [congruence|discriminate].
    + rewrite forallb_lower; [exact F|apply is_label_lower].
  - rewrite forallb_lower; [exact Ft|apply is_alpha_lower].
  - unfold lower at 1. rewrite map_app. f_equal. apply lower_labels.
Qed.

(** X5.  For texts over U+0000..U+00FF: every value reported under DOMAIN
    is the lower-casing of a piece of the refanged text that has no
    character of [[A-Za-z0-9-]] directly before or after it, and it is made
    of one or more non-empty labels of [[a-z0-9-]], each followed by a dot,
    and a last label of two or more letters [[a-z]].  (Beyond U+00FF the
    pattern, compiled with [IGNORECASE], also takes U+0130, U+0131, U+017F
    and U+212A for letters.) *)
Theorem domain_value_shape (text v : string) :
  mkIOC DOMAIN v ∈ validate_iocs text ->
  domain_text (chars v)
  /\ exists pre m post,
       refang (chars text) = pre ++ m ++ post
       /\ chars v = lower m
       /\ label_before pre = false /\ label_after post = false.
Proof.
  rewrite elem_of_domain. intros (m & Hin & _ & ->). rewrite chars_text_of.
  apply finditer_sound in Hin as (pre & post & E & H).
  apply found_in_ends in H as (c' & H & R).
  apply domain_ends_full in H as (m' & D & R' & Lb & La).
  rewrite <- (reaches_same_text _ _ _ _ R R') in D.
  destruct R as [A _]. cbn [ahead behind] in *. apply app_inv_head in A.
  rewrite <- A in La.
  split; [apply domain_text_lower; exact D|].
  exists pre, m, post. auto.
Qed.

Lemma domain_value_shape_witness :
  mkIOC DOMAIN "example.com" ∈ validate_iocs mixed_case
  /\ domain_text (chars "example.com").
Proof.
  split; [exact mixed_case_domain|].
  exact (proj1 (domain_value_shape mixed_case "example.com" mixed_case_domain)).
Defined.

(** ** Lower-casing the text *)

Lemma length_lower s : length (lower s) = length s.
Proof. unfold lower. apply length_map. Qed.

Lemma lower_char_LF x : (lower_char x =? "010") = (x =? "010").
Proof. each_char x; reflexivity. Qed.

Lemma is_word_lower x : is_word (lower_char x) = is_word x.
Proof. each_char x; reflexivity. Qed.

Lemma at_boundary_lower c : at_boundary (lower_cursor c) = at_boundary c.
Proof.
  destruct c as [[|x bh] [|y ah]]; unfold at_boundary; simpl;
    rewrite ?is_word_lower; reflexivity.
Qed.

Lemma eat_lower ok c :
  (forall x, ok (lower_char x) = ok x) ->
  eat ok (lower_cursor c) = map lower_cursor (eat ok c).
Proof.
  intros E. destruct c as [bh [|x r]]; [reflexivity|].
  unfold eat; simpl. rewrite E. destruct (ok x); reflexivity.
Qed.

Lemma flat_map_lower (F G : cursor -> list cursor) l :
  (forall c, F (lower_cursor c) = map lower_cursor (G c)) ->
  flat_map F (map lower_cursor l) = map lower_cursor (flat_map G l).
Proof.
  intros E. induction l as [|c l IH]; simpl; [reflexivity|].
  rewrite map_app, E, IH. reflexivity.
Qed.

Lemma rep_lower body :
  (forall c, body (lower_cursor c) = map lower_cursor (body c)) ->
  forall hi lo c,
    rep body lo hi (lower_cursor c) = map lower_cursor (rep body lo hi c).
Proof.
  intros B. induction hi as [|hi IH]; intros lo c; cbn [rep].
  - destruct lo; reflexivity.
  - rewrite map_app, B. f_equal; [|destruct lo; reflexivity].
    apply flat_map_lower. intros c1.
    change (ahead (lower_cursor c1)) with (lower (ahead c1)).
    change (ahead (lower_cursor c)) with (lower (ahead c)).
    rewrite !length_lower.
    destruct (length (ahead c1) <? length (ahead c))%nat; [apply IH|reflexivity].
Qed.

(** The matcher commutes with lower-casing the subject when no test of
    the expression tells a character from its lower-case form. *)
Lemma ends_lower ic r :
  case_blind ic r ->
  forall c, ends ic r (lower_cursor c) = map lower_cursor (ends ic r c).
Proof.
  induction r as [|a|ng its|r1 IH1 r2 IH2|r1 IH1 r2 IH2|lo hi r1 IH1| |ng its|r1 IH1];
    cbn [case_blind ends]; intros B c.
  - apply eat_lower. intros x. now rewrite lower_char_LF.
  - apply eat_lower, B.
  - apply eat_lower, B.
  - destruct B as [B1 B2]. rewrite IH1 by exact B1.
    apply flat_map_lower. intros c1. apply IH2, B2.
  - destruct B as [B1 B2]. rewrite IH1, IH2, map_app by assumption. reflexivity.
  - change (ahead (lower_cursor c)) with (lower (ahead c)).
    rewrite length_lower. apply rep_lower. intros c1. apply IH1, B.
  - rewrite at_boundary_lower. destruct (at_boundary c); reflexivity.
  - destruct c as [[|x bh] ah]; [reflexivity|]. simpl.
    rewrite B. destruct (class_test ic ng its x); reflexivity.
  - rewrite IH1 by exact B. destruct (ends ic r1 c); reflexivity.
Qed.

Lemma item_test_lower it x : item_test true it (lower_char x) = item_test true it x.
Proof. destruct it; simpl; rewrite lower_char_idem; reflexivity. Qed.

Lemma class_test_lower ng its x :
  class_test true ng its (lower_char x) = class_test true ng its x.
Proof.
  unfold class_test. f_equal.
  induction its as [|it its IH]; simpl; [reflexivity|].
  rewrite item_test_lower, IH. reflexivity.
Qed.

(** Under IGNORECASE every expression is. *)
Lemma case_blind_ignorecase r : case_blind true r.
Proof.
  induction r; simpl; auto using class_test_lower.
  intros x. unfold lit_test. rewrite lower_char_idem. reflexivity.
Qed.

(** The IP pattern, compiled without IGNORECASE, names only digits and
    the dot. *)
Lemma case_blind_ip : case_blind false (expr _IP_PATTERN).
Proof.
  assert (D : forall x, class_test false false [CDigit] (lower_char x)
                        = class_test false false [CDigit] x)
    by (intros x; each_char x; reflexivity).
  assert (L : forall x, lit_test false "." (lower_char x) = lit_test false "." x)
    by (intros x; each_char x; reflexivity).
  simpl. auto.
Qed.

Lemma case_blind_patterns p :
  In p [_IP_PATTERN; _DOMAIN_PATTERN; _HASH_PATTERN; _URL_PATTERN] ->
  case_blind (ignorecase p) (expr p).
Proof.
  intros [<-|[<-|[<-|[<-|[]]]]];
    [exact case_blind_ip|apply case_blind_ignorecase..].
Qed.

Lemma match_at_lower p c :
  case_blind (ignorecase p) (expr p) ->
  match_at p (lower_cursor c) = option_map lower_cursor (match_at p c).
Proof.
  intros B. unfold match_at. rewrite ends_lower by exact B.
  destruct (ends (ignorecase p) (expr p) c); reflexivity.
Qed.

Lemma matched_lower c c' :
  matched (lower_cursor c) (lower_cursor c') = lower (matched c c').
Proof.
  unfold matched.
  change (ahead (lower_cursor c)) with (lower (ahead c)).
  change (ahead (lower_cursor c')) with (lower (ahead c')).
  rewrite !length_lower. unfold lower. apply firstn_map.
Qed.

Lemma scan_lower p :
  case_blind (ignorecase p) (expr p) ->
  forall ah k bh, scan p k (lower bh) (lower ah) = map lower (scan p k bh ah).
Proof.
  intros B.
  assert (N : forall ah,
             (forall k bh, scan p k (lower bh) (lower ah) = map lower (scan p k bh ah)) ->
             forall k bh x,
               scan_next p k (lower bh) (lower (x :: ah))
               = map lower (scan_next p k bh (x :: ah))).
  { intros ah IH k bh x. simpl. apply (IH k (x :: bh)). }
  assert (S0 : forall bh ah,
             (forall k, scan_next p k (lower bh) (lower ah)
                        = map lower (scan_next p k bh ah)) ->
             forall k, scan p k (lower bh) (lower ah) = map lower (scan p k bh ah)).
  { intros bh ah Hn k. rewrite !scan_eq. destruct k as [|k]; [|apply Hn].
    change (Cursor (lower bh) (lower ah)) with (lower_cursor (Cursor bh ah)).
    rewrite match_at_lower by exact B.
    destruct (match_at p (Cursor bh ah)) as [c'|]; cbn [option_map]; [|apply Hn].
    rewrite matched_lower, length_lower. cbn [map]. f_equal. apply Hn. }
  induction ah as [|x ah IH]; intros k bh; apply S0; intros k'.
  - reflexivity.
  - apply N, IH.
Qed.

Lemma finditer_lower p s :
  case_blind (ignorecase p) (expr p) ->
  finditer p (lower s) = map lower (finditer p s).
Proof. intros B. apply (scan_lower p B s 0 []). Qed.

Lemma lower_char_bracket a x :
  x = "[" \/ x = "." \/ x = "]" -> (lower_char a =? x) = (a =? x).
Proof. intros [->|[->| ->]]; each_char a; reflexivity. Qed.

Lemma refang_step a b c r :
  refang (a :: b :: c :: r) =
  if (a =? "[") && (b =? ".") && (c =? "]") then "." :: refang r
  else a :: refang (b :: c :: r).
Proof. reflexivity. Qed.

(** [str.lower] and the refanging [str.replace] commute. *)
Lemma refang_lower s : refang (lower s) = lower (refang s).
Proof.
  induction s as [|a|a b IH|a b c r IHr IHt] using refang_cases;
    try reflexivity.
  change (lower (a :: b :: c :: r))
    with (lower_char a :: lower_char b :: lower_char c :: lower r).
  rewrite (refang_step a b c r),
    (refang_step (lower_char a) (lower_char b) (lower_char c) (lower r)).
  rewrite !lower_char_bracket by auto.
  destruct ((a =? "[") && (b =? ".") && (c =? "]")).
  - rewrite IHr. reflexivity.
  - change (lower_char b :: lower_char c :: lower r) with (lower (b :: c :: r)).
    rewrite IHt. reflexivity.
Qed.

Lemma lower_dotted_quad v : dotted_quad v -> lower v = v.
Proof.
  intros D. apply dotted_quad_chars in D.
  induction v as [|x v IH]; [reflexivity|].
  cbn [forallb] in D. apply andb_true_iff in D as [Hx D].
  simpl. rewrite (IH D). f_equal.
  revert Hx. each_char x; vm_compute; congruence.
Qed.

Lemma chars_str_lower s : chars (str_lower s) = lower (chars s).
Proof. unfold str_lower. apply chars_text_of. Qed.

Lemma str_lower_text_of l : str_lower (text_of l) = text_of (lower l).
Proof. unfold str_lower. rewrite chars_text_of. reflexivity. Qed.

Lemma finditer_of_lower p text :
  In p [_IP_PATTERN; _DOMAIN_PATTERN; _HASH_PATTERN; _URL_PATTERN] ->
  forall w,
    In w (finditer p (refang (chars (str_lower text)))) <->
    exists w', In w' (finditer p (refang (chars text))) /\ w = lower w'.
Proof.
  intros Hp w.
  rewrite chars_str_lower, refang_lower, finditer_lower
    by (apply case_blind_patterns, Hp).
  rewrite in_map_iff. split; intros (w' & A & B); exists w'; auto.
Qed.

(** X6.  Lower-casing the input lower-cases the result: the values found
    in [text.lower()] are the lower-cased values found in [text], type by
    type (texts over U+0000..U+00FF). *)
Theorem lower_text_lower_values (text : string) (t : IOCType) (v : string) :
  mkIOC t v ∈ validate_iocs (str_lower text) <->
  exists v', mkIOC t v' ∈ validate_iocs text /\ v = str_lower v'.
Proof.
  destruct t.
  - rewrite elem_of_ip. split.
    + intros (w & I & V & ->).
      apply finditer_of_lower in I as (w' & I & ->); [|simpl; auto].
      rewrite (lower_dotted_quad w' (finditer_ip_shape _ _ I)) in *.
      exists (text_of w'). split.
      * apply elem_of_ip. eauto.
      * rewrite str_lower_text_of,
          (lower_dotted_quad w' (finditer_ip_shape _ _ I)). reflexivity.
    + intros (v' & M & ->). apply elem_of_ip in M as (w' & I & V & ->).
      pose proof (lower_dotted_quad w' (finditer_ip_shape _ _ I)) as L.
      exists w'. split; [|split; [exact V|]].
      * apply finditer_of_lower; [simpl; auto|]. exists w'. auto.
      * rewrite str_lower_text_of, L. reflexivity.
  - rewrite elem_of_domain. split.
    + intros (w & I & V & ->).
      apply finditer_of_lower in I as (w' & I & ->); [|simpl; auto].
      rewrite lower_idem in *.
      exists (text_of (lower w')). split.
      * apply elem_of_domain. eauto.
      * rewrite str_lower_text_of, lower_idem. reflexivity.
    + intros (v' & M & ->). apply elem_of_domain in M as (w' & I & V & ->).
      exists (lower w'). rewrite lower_idem. split; [|split; [exact V|]].
      * apply finditer_of_lower; [simpl; auto|]. exists w'. auto.
      * rewrite str_lower_text_of, lower_idem. reflexivity.
  - rewrite elem_of_hash. split.
    + intros (w & I & ->).
      apply finditer_of_lower in I as (w' & I & ->); [|simpl; auto].
      exists (text_of w'). split.
      * apply elem_of_hash. eauto.
      * rewrite str_lower_text_of. reflexivity.
    + intros (v' & M & ->). apply elem_of_hash in M as (w' & I & ->).
      exists (lower w'). split.
      * apply finditer_of_lower; [simpl; auto 6|]. exists w'. auto.
      * rewrite str_lower_text_of. reflexivity.
  - rewrite elem_of_url. split.
    + intros (w & I & ->).
      apply finditer_of_lower in I as (w' & I & ->); [|simpl; auto 6].
      exists (text_of w'). split.
      * apply elem_of_url. eauto.
      * rewrite str_lower_text_of. reflexivity.
    + intros (v' & M & ->). apply elem_of_url in M as (w' & I & ->).
      exists (lower w'). split.
      * apply finditer_of_lower; [simpl; auto 6|]. exists w'. auto.
      * rewrite str_lower_text_of. reflexivity.
Qed.

(** ** Piece by piece *)

Section Separated.

Variable sep : ascii.
Variables pre post : list ascii.
Hypothesis Hpre : edge sep pre.
Hypothesis Hpost : edge sep post.

Lemma eat_widen ok c :
  ok sep = false ->
  eat ok (widen pre post c) = map (widen pre post) (eat ok c).
Proof.
  intros E. destruct c as [bh [|x r]]; unfold eat, widen; simpl.
  - destruct Hpost as [->|(r & ->)]; [reflexivity|]. rewrite E. reflexivity.
  - destruct (ok x); reflexivity.
Qed.

Lemma word_edge l e :
  is_word sep = false -> edge sep e ->
  match l ++ e with x :: _ => is_word x | [] => false end
  = match l with x :: _ => is_word x | [] => false end.
Proof.
  intros W [->|(r & ->)]; destruct l; simpl; auto.
Qed.

Lemma at_boundary_widen c :
  is_word sep = false -> at_boundary (widen pre post c) = at_boundary c.
Proof.
  intros W. destruct c as [bh ah]. unfold at_boundary, widen; simpl.
  rewrite (word_edge bh pre W Hpre), (word_edge ah post W Hpost). reflexivity.
Qed.

Lemma flat_map_widen (F G : cursor -> list cursor) l :
  (forall c, F (widen pre post c) = map (widen pre post) (G c)) ->
  flat_map F (map (widen pre post) l) = map (widen pre post) (flat_map G l).
Proof.
  intros E. induction l as [|c l IH]; simpl; [reflexivity|].
  rewrite map_app, E, IH. reflexivity.
Qed.

Lemma rep_widen body :
  (forall c, body (widen pre post c) = map (widen pre post) (body c)) ->
  forall hi lo c,
    rep body lo hi (widen pre post c) = map (widen pre post) (rep body lo hi c).
Proof.
  intros B. induction hi as [|hi IH]; intros lo c; cbn [rep].
  - destruct lo; reflexivity.
  - rewrite map_app, B. f_equal; [|destruct lo; reflexivity].
    apply flat_map_widen. intros c1.
    change (ahead (widen pre post c1)) with (ahead c1 ++ post).
    change (ahead (widen pre post c)) with (ahead c ++ post).
    rewrite !length_app.
    destruct (Nat.ltb_spec (length (ahead c1)) (length (ahead c)));
      destruct (Nat.ltb_spec (length (ahead c1) + length post)
                             (length (ahead c) + length post));
      try lia; [apply IH|reflexivity].
Qed.

(** Between two separators the matcher sees neither what lies before the
    piece nor what lies after it. *)
Lemma ends_widen ic r :
  sep_bound sep ic r = true ->
  forall c, ends ic r (widen pre post c) = map (widen pre post) (ends ic r c).
Proof.
  induction r as [|a|ng its|r1 IH1 r2 IH2|r1 IH1 r2 IH2|lo hi r1 IH1| |ng its|r1 IH1];
    cbn [sep_bound ends]; intros B c.
  - apply eat_widen. unfold LF in B. rewrite B. reflexivity.
  - apply eat_widen. apply negb_true_iff, B.
  - apply eat_widen. apply negb_true_iff, B.
  - apply andb_true_iff in B as [B1 B2]. rewrite IH1 by exact B1.
    apply flat_map_widen. intros c1. apply IH2, B2.
  - apply andb_true_iff in B as [B1 B2].
    rewrite IH1, IH2, map_app by assumption. reflexivity.
  - rewrite rep_widen by (intros c1; apply IH1, B).
    destruct hi as [h|]; [reflexivity|].
    change (ahead (widen pre post c)) with (ahead c ++ post).
    rewrite (rep_rounds_any (ends ic r1) lo c (length (ahead c ++ post)))
      by (rewrite length_app; lia).
    reflexivity.
  - rewrite at_boundary_widen by (apply negb_true_iff, B).
    destruct (at_boundary c); reflexivity.
  - apply negb_true_iff in B. destruct c as [[|x bh] ah]; unfold widen; simpl.
    + destruct Hpre as [->|(r & ->)]; [reflexivity|]. rewrite B. reflexivity.
    + destruct (class_test ic ng its x); reflexivity.
  - rewrite IH1 by exact B. destruct (ends ic r1 c); reflexivity.
Qed.

Lemma match_at_widen p c :
  sep_bound sep (ignorecase p) (expr p) = true ->
  match_at p (widen pre post c) = option_map (widen pre post) (match_at p c).
Proof.
  intros B. unfold match_at. rewrite ends_widen by exact B.
  destruct (ends (ignorecase p) (expr p) c); reflexivity.
Qed.

Lemma matched_widen c c' :
  matched (widen pre post c) (widen pre post c') = matched c c'.
Proof.
  unfold matched, widen; simpl. rewrite !length_app.
  replace (length (ahead c) + length post - (length (ahead c') + length post))
    with (length (ahead c) - length (ahead c')) by lia.
  apply take_app_le. lia.
Qed.

End Separated.

Lemma edge_nil sep : edge sep [].
Proof. left. reflexivity. Qed.

Lemma edge_sep sep r : edge sep (sep :: r).
Proof. right. exists r. reflexivity. Qed.

Lemma length_matched c c' : length (matched c c') <= length (ahead c).
Proof. unfold matched. rewrite length_take. lia. Qed.

Section SeparatedScan.

Variable p : pattern.
Variable sep : ascii.
Hypothesis Hp : sep_bound sep (ignorecase p) (expr p) = true.

(** What lies before the separator that opens a piece plays no part in the
    scan of the piece. *)
Lemma scan_sep_right z : forall ah k bh,
  scan p k (bh ++ sep :: z) ah = scan p k bh ah.
Proof.
  assert (W : forall bh ah,
             Cursor (bh ++ sep :: z) ah = widen (sep :: z) [] (Cursor bh ah)).
  { intros bh ah. unfold widen; simpl. rewrite app_nil_r. reflexivity. }
  assert (S0 : forall bh ah,
             (forall k, scan_next p k (bh ++ sep :: z) ah = scan_next p k bh ah) ->
             forall k, scan p k (bh ++ sep :: z) ah = scan p k bh ah).
  { intros bh ah Hn k. rewrite !scan_eq. destruct k as [|k]; [|apply Hn].
    rewrite W, (match_at_widen sep _ _ (edge_sep sep z) (edge_nil sep)) by exact Hp.
    destruct (match_at p (Cursor bh ah)) as [c'|]; cbn [option_map]; [|apply Hn].
    rewrite matched_widen. f_equal. apply Hn. }
  induction ah as [|x ah IH]; intros k bh; apply S0; intros k'.
  - reflexivity.
  - apply (IH k' (x :: bh)).
Qed.

(** The scan of a piece followed by a separator and more text: the matches
    of the piece, then those of the rest. *)
Lemma scan_sep_left b : forall a k bh,
  k <= length a ->
  scan p k bh (a ++ sep :: b) = scan p k bh a ++ scan p 0 (sep :: rev a ++ bh) b.
Proof.
  assert (W : forall bh ah,
             Cursor bh (ah ++ sep :: b) = widen [] (sep :: b) (Cursor bh ah)).
  { intros bh ah. unfold widen; simpl. rewrite app_nil_r. reflexivity. }
  induction a as [|x a IH]; intros k bh Hk.
  - assert (k = 0) by (simpl in Hk; lia). subst k.
    rewrite (scan_eq p 0 bh ([] ++ sep :: b)), (scan_eq p 0 bh []).
    rewrite W, (match_at_widen sep _ _ (edge_nil sep) (edge_sep sep b)) by exact Hp.
    destruct (match_at p (Cursor bh [])) as [c'|]; cbn [option_map].
    + rewrite matched_widen.
      pose proof (length_matched (Cursor bh []) c') as L. cbn [ahead length] in L.
      destruct (matched (Cursor bh []) c') as [|y m]; [|simpl in L; lia].
      reflexivity.
    + reflexivity.
  - rewrite (scan_eq p k bh ((x :: a) ++ sep :: b)), (scan_eq p k bh (x :: a)).
    destruct k as [|k].
    + rewrite W, (match_at_widen sep _ _ (edge_nil sep) (edge_sep sep b)) by exact Hp.
      destruct (match_at p (Cursor bh (x :: a))) as [c'|]; cbn [option_map].
      * rewrite matched_widen.
        pose proof (length_matched (Cursor bh (x :: a)) c') as L.
        cbn [ahead length] in L.
        cbn [app scan_next]. rewrite IH by lia.
        cbn [rev]. rewrite <- app_assoc. reflexivity.
      * cbn [app scan_next]. rewrite IH by lia.
        cbn [rev]. rewrite <- app_assoc. reflexivity.
    + cbn [app scan_next]. rewrite IH by (simpl in Hk; lia).
      cbn [rev]. rewrite <- app_assoc. reflexivity.
Qed.

Lemma finditer_sep a b :
  finditer p (a ++ sep :: b) = finditer p a ++ finditer p b.
Proof.
  unfold finditer. rewrite scan_sep_left by lia. f_equal.
  rewrite app_nil_r.
  change (sep :: rev a) with ([] ++ sep :: rev a).
  apply scan_sep_right.
Qed.

End SeparatedScan.

(** None of the four patterns matches a line feed. *)
Lemma sep_bound_LF p :
  In p [_IP_PATTERN; _DOMAIN_PATTERN; _HASH_PATTERN; _URL_PATTERN] ->
  sep_bound LF (ignorecase p) (expr p) = true.
Proof. intros [<-|[<-|[<-|[<-|[]]]]]; reflexivity. Qed.

(** The URL pattern aside, none matches a separator. *)
Lemma sep_bound_separator x p :
  separator x = true ->
  In p [_IP_PATTERN; _DOMAIN_PATTERN; _HASH_PATTERN] ->
  sep_bound x (ignorecase p) (expr p) = true.
Proof.
  intros Hx [<-|[<-|[<-|[]]]]; revert Hx; each_char x; vm_compute;
    intros H; first [reflexivity|discriminate H].
Qed.

Lemma separator_refang x :
  separator x = true ->
  (x =? "[") = false /\ (x =? ".") = false /\ (x =? "]") = false.
Proof.
  unfold separator. intros H. apply negb_true_iff in H.
  repeat (apply orb_false_iff in H as [H ?]). auto.
Qed.

Lemma chars_append a b : chars (a +:+ b) = chars a ++ chars b.
Proof.
  induction a as [|x a IH]; [reflexivity|].
  simpl. f_equal. exact IH.
Qed.

Lemma passes_lines a b : passes (a ++ LF :: b) = passes a ∪ passes b.
Proof.
  apply set_eq. intros i.
  rewrite elem_of_union, !elem_of_passes.
  rewrite !(finditer_sep _ LF) by (apply sep_bound_LF; simpl; auto 6).
  split.
  - intros [(v & I & R)|[(v & I & R)|[(v & I & R)|(v & I & R)]]];
      apply in_app_iff in I as [I|I]; eauto 10.
  - intros [[(v & I & R)|[(v & I & R)|[(v & I & R)|(v & I & R)]]]
           |[(v & I & R)|[(v & I & R)|[(v & I & R)|(v & I & R)]]]].
    + left. exists v. split; [apply in_app_iff; auto|exact R].
    + right; left. exists v. split; [apply in_app_iff; auto|exact R].
    + right; right; left. exists v. split; [apply in_app_iff; auto|exact R].
    + right; right; right. exists v. split; [apply in_app_iff; auto|exact R].
    + left. exists v. split; [apply in_app_iff; auto|exact R].
    + right; left. exists v. split; [apply in_app_iff; auto|exact R].
    + right; right; left. exists v. split; [apply in_app_iff; auto|exact R].
    + right; right; right. exists v. split; [apply in_app_iff; auto|exact R].
Qed.

(** X7.  The text can be processed line by line: the result for two texts
    joined by a line feed is the union of their results.  No match and no
    [[.]] spans a line feed, and a line feed beside a match counts as the
    edge of the text. *)
Theorem validate_iocs_lines (a b : string) :
  validate_iocs (a +:+ String LF b) = validate_iocs a ∪ validate_iocs b.
Proof.
  rewrite !validate_iocs_eq, chars_append.
  change (chars (String LF b)) with (LF :: chars b).
  rewrite refang_across by reflexivity.
  apply passes_lines.
Qed.

Lemma refang_separated a x b :
  separator x = true ->
  refang (chars (a +:+ String x b)) = refang (chars a) ++ x :: refang (chars b).
Proof.
  intros Hx. apply separator_refang in Hx as (H1 & H2 & H3).
  rewrite chars_append. change (chars (String x b)) with (x :: chars b).
  apply refang_across; assumption.
Qed.

(** X11.  IPs, domains and hashes can be looked for piece by piece: across
    a character that is no word character and none of [-], [.], [[] and
    []] (white space, a comma, a quote, ...), the values of these three
    types are those of the text before it and those of the text after it.
    URLs are left out: a URL may hold such a character. *)
Theorem validate_iocs_separated (a b : string) (x : ascii) (t : IOCType) (v : string) :
  separator x = true -> t <> URL ->
  mkIOC t v ∈ validate_iocs (a +:+ String x b)
  <-> mkIOC t v ∈ validate_iocs a \/ mkIOC t v ∈ validate_iocs b.
Proof.
  intros Hx Ht. destruct t; [| | |congruence].
  - rewrite !elem_of_ip, (refang_separated _ _ _ Hx),
      (finditer_sep _ x) by (apply sep_bound_separator; simpl; auto).
    split.
    + intros (w & I & R). apply in_app_iff in I as [I|I]; eauto.
    + intros [(w & I & R)|(w & I & R)]; exists w;
        (split; [apply in_app_iff; auto|exact R]).
  - rewrite !elem_of_domain, (refang_separated _ _ _ Hx),
      (finditer_sep _ x) by (apply sep_bound_separator; simpl; auto).
    split.
    + intros (w & I & R). apply in_app_iff in I as [I|I]; eauto.
    + intros [(w & I & R)|(w & I & R)]; exists w;
        (split; [apply in_app_iff; auto|exact R]).
  - rewrite !elem_of_hash, (refang_separated _ _ _ Hx),
      (finditer_sep _ x) by (apply sep_bound_separator; simpl; auto).
    split.
    + intros (w & I & R). apply in_app_iff in I as [I|I]; eauto.
    + intros [(w & I & R)|(w & I & R)]; exists w;
        (split; [apply in_app_iff; auto|exact R]).
Qed.

Lemma validate_iocs_separated_witness :
  mkIOC DOMAIN "beta.org" ∈ validate_iocs "alpha.com beta.org".
Proof.
  apply (validate_iocs_separated "alpha.com" "beta.org" " " DOMAIN "beta.org");
    [reflexivity|discriminate|].
  right. apply elem_of_domain. exists (chars "beta.org").
  split; [vm_compute; left; reflexivity|]. split; reflexivity.
Defined.

(** ** The command line *)

Lemma json_escape_printable x : forallb printable (json_escape x) = true.
Proof. each_char x; reflexivity. Qed.

Lemma forallb_flat_map {A B} (f : B -> bool) (g : A -> list B) l :
  (forall x, forallb f (g x) = true) -> forallb f (flat_map g l) = true.
Proof.
  intros H. induction l as [|x l IH]; simpl; [reflexivity|].
  rewrite forallb_app, H, IH. reflexivity.
Qed.

Lemma json_string_printable s : forallb printable (json_string s) = true.
Proof.
  unfold json_string. cbn [forallb]. rewrite forallb_app.
  rewrite (forallb_flat_map _ _ _ json_escape_printable). reflexivity.
Qed.

Lemma join_printable sep parts :
  forallb printable sep = true ->
  Forall (fun part => forallb printable part = true) parts ->
  forallb printable (join sep parts) = true.
Proof.
  intros Hs F. induction F as [|x r Hx F IH]; [reflexivity|].
  destruct r as [|y r]; [exact Hx|].
  change (join sep (x :: y :: r)) with (x ++ sep ++ join sep (y :: r)).
  rewrite !forallb_app, Hx, Hs, IH. reflexivity.
Qed.

Lemma ioc_dict_printable i : forallb printable (json_dumps (ioc_dict i)) = true.
Proof.
  unfold ioc_dict. cbn [json_dumps map fst snd join forallb].
  rewrite !forallb_app, !json_string_printable. reflexivity.
Qed.

Lemma printed_printable iocs : forallb printable (printed iocs) = true.
Proof.
  unfold printed. cbn [json_dumps forallb]. rewrite forallb_app.
  rewrite join_printable; [reflexivity|reflexivity|].
  rewrite map_map. induction iocs as [|i l IH]; simpl; constructor;
    [apply ioc_dict_printable|exact IH].
Qed.

Lemma argument_or_stdin_stdout argv w :
  stdout (snd (argument_or_stdin argv w)) = stdout w.
Proof. destruct argv as [|a0 [|a1 r]]; reflexivity. Qed.

Lemma main_eq iteration argv w :
  _main iteration argv w =
  (0%Z,
   print (printed (iteration (validate_iocs (fst (argument_or_stdin argv w)))))
         (snd (argument_or_stdin argv w))).
Proof.
  unfold _main. destruct (argument_or_stdin argv w) as [text w1]. reflexivity.
Qed.

(** X8.  [_main] returns 0 and adds exactly one line to standard output:
    characters from SPACE to [~] only, then a line feed, whatever the text
    and whatever the order in which the set is gone through.  Standard
    input is left alone when an argument is given. *)
Theorem main_prints_one_line (iteration : gset IOC -> list IOC)
    (argv : list string) (w : world) :
  fst (_main iteration argv w) = 0%Z
  /\ (exists line,
        stdout (snd (_main iteration argv w)) = stdout w ++ line ++ [LF]
        /\ forallb printable line = true)
  /\ (1 < length argv -> stdin (snd (_main iteration argv w)) = stdin w).
Proof.
  rewrite main_eq. cbn [fst snd]. split; [reflexivity|]. split.
  - eexists. split.
    + unfold print. cbn [stdout]. rewrite argument_or_stdin_stdout. reflexivity.
    + apply printed_printable.
  - intros L. destruct argv as [|a0 [|a1 r]]; simpl in L; try lia. reflexivity.
Qed.














(** ** The DOMAIN pass: what is found *)

Lemma domain_label_intro c l c1 :
  l <> [] -> forallb is_label l = true -> reaches c (l ++ ["."]) c1 ->
  In c1 (ends true (Cat (Rep 1 None (Class false label_chars)) (Lit ".")) c).
Proof.
  intros Hne F R. apply reaches_split in R as (cm & R1 & R2).
  apply in_ends_cat. exists cm. split.
  - apply in_ends_class_rep_unbounded. exists l. split; [|split; [|exact R1]].
    + destruct l; [congruence|simpl; lia].
    + rewrite (forallb_pointwise _ _ l class_label). exact F.
  - apply in_ends_lit. exists ".". split; [reflexivity|exact R2].
Qed.

Lemma domain_labels_intro labels : forall c c',
  Forall (fun l => l <> [] /\ forallb is_label l = true) labels ->
  reaches c (concat (map (fun l => l ++ ["."]) labels)) c' ->
  chain (ends true (Cat (Rep 1 None (Class false label_chars)) (Lit ".")))
        (length labels) c c'.
Proof.
  induction labels as [|l ls IH]; intros c c' F R.
  - apply reaches_nil in R. subst. constructor.
  - inversion F as [|? ? [Hne Hl] F']; subst. cbn [map concat] in R.
    apply reaches_split in R as (c1 & R1 & R2).
    apply (chain_round _ _ _ c1).
    + apply (domain_label_intro _ l); assumption.
    + apply reaches_length in R1. rewrite R1, length_app. simpl. lia.
    + apply IH; assumption.
Qed.

(** The engine can match a domain that stands clear of label characters. *)
Lemma domain_in_ends bh m post :
  domain_text m -> label_behind bh = false -> label_after post = false ->
  In (Cursor (rev m ++ bh) post)
     (ends true (expr _DOMAIN_PATTERN) (Cursor bh (m ++ post))).
Proof.
  intros (labels & tld & Hne & F & L2 & Ft & ->) Lb La.
  set (body := concat (map (fun l => l ++ ["."]) labels)).
  pose proof (reaches_prefix bh (body ++ tld) post) as R.
  apply reaches_split in R as (c1 & R1 & R2).
  pose proof (domain_labels_intro labels _ _ F R1) as C.
  unfold _DOMAIN_PATTERN, cat. cbn [expr foldr].
  apply in_ends_cat. exists (Cursor bh ((body ++ tld) ++ post)). split.
  { cbn [ends behind]. destruct bh as [|x bh]; [left; reflexivity|].
    simpl in Lb. rewrite class_label, Lb. left; reflexivity. }
  apply in_ends_cat. exists c1. split.
  { cbn [ends]. apply rep_spec. exists (length labels). split; [|exact C].
    pose proof (chain_rounds _ _ _ _ C).
    split; [destruct labels; [congruence|simpl; lia]|lia]. }
  apply in_ends_cat. exists (Cursor (rev (body ++ tld) ++ bh) post). split.
  { apply in_ends_class_rep_unbounded. exists tld. split; [exact L2|].
    split; [|exact R2].
    rewrite (forallb_pointwise _ _ tld class_alpha). exact Ft. }
  apply in_ends_not_ahead. split; [|reflexivity].
  cbn [ends]. unfold eat. cbn [ahead]. destruct post as [|y post]; [reflexivity|].
  simpl in La. rewrite class_label, La. reflexivity.
Qed.

Lemma is_alpha_label x : is_alpha x = true -> is_label x = true.
Proof. unfold is_label. intros ->. reflexivity. Qed.

Lemma domain_text_chars m :
  domain_text m -> forallb (fun x => is_label x || (x =? ".")) m = true.
Proof.
  intros (labels & tld & _ & F & _ & Ft & ->).
  rewrite forallb_app. apply andb_true_iff. split.
  - clear -F. induction F as [|l ls [_ Hl] F IH]; [reflexivity|].
    cbn [map concat]. rewrite !forallb_app, IH. cbn [forallb].
    rewrite (forallb_impl is_label _ l); [reflexivity| |exact Hl].
    intros x ->. reflexivity.
  - eapply forallb_impl; [|exact Ft].
    intros x H. rewrite (is_alpha_label _ H). reflexivity.
Qed.

Lemma domain_text_shape m : domain_text m -> domain_shape m.
Proof.
  intros (labels & tld & _ & _ & L2 & Ft & ->).
  exists (concat (map (fun l => l ++ ["."]) labels)), tld. auto.
Qed.

(** An earlier match of the domain pattern cannot run into a place whose
    left neighbour is neither a label character nor a dot. *)
Lemma domain_no_overrun p1 p2 rest w :
  p2 <> [] -> label_before (p1 ++ p2) = false -> dot_before (p1 ++ p2) = false ->
  found_at _DOMAIN_PATTERN (rev p1) (p2 ++ rest) w -> length w <= length p2.
Proof.
  intros Hne Lb Db H.
  destruct (found_at_prefix _ _ _ _ H) as (post' & A).
  apply found_in_ends in H as (c' & H & R).
  apply domain_ends_full in H as (m' & D & R' & _ & _).
  rewrite <- (reaches_same_text _ _ _ _ R R') in D.
  apply domain_text_chars in D.
  destruct (Nat.le_gt_cases (length w) (length p2)) as [|Hgt]; [assumption|exfalso].
  assert (P : p2 = take (length p2) w).
  { apply (f_equal (take (length p2))) in A.
    rewrite take_app_length in A.
    etransitivity; [exact A|]. apply take_app_le. lia. }
  destruct (exists_last Hne) as (p2' & y & E).
  assert (Hy : is_label y || (y =? ".") = true).
  { apply (forallb_last (fun x => is_label x || (x =? ".")) p2').
    rewrite <- E, P. apply forallb_take. exact D. }
  unfold label_before, dot_before in Lb, Db. rewrite E, app_assoc in Lb, Db.
  rewrite rev_app_distr in Lb, Db. cbn [rev app label_behind] in Lb, Db.
  apply orb_true_iff in Hy as [Hy|Hy]; congruence.
Qed.

(** X10.  For texts over U+0000..U+00FF: a domain that stands in the
    refanged text with no character of [[A-Za-z0-9-]] and no dot directly
    before it, and no character of [[A-Za-z0-9-]] directly after it, is
    found: a DOMAIN value that begins at the same place is in the result.
    (Beyond U+00FF a character that [IGNORECASE] takes for a letter,
    U+0130, U+0131, U+017F or U+212A, directly before the domain makes the
    match begin earlier.) *)
Theorem domain_occurrence_reported (text : string) (pre m post : list ascii) :
  refang (chars text) = pre ++ m ++ post ->
  domain_text m ->
  label_before pre = false -> dot_before pre = false -> label_after post = false ->
  exists m' post',
    m ++ post = m' ++ post' /\ domain_text m'
    /\ mkIOC DOMAIN (text_of (lower m')) ∈ validate_iocs text.
Proof.
  intros E D Lb Db La.
  pose proof (domain_in_ends (rev pre) m post D Lb La) as Hin.
  destruct (match_at _DOMAIN_PATTERN (Cursor (rev pre) (m ++ post))) as [c'|] eqn:M.
  2:{ unfold match_at in M. apply head_None in M.
      change (ignorecase _DOMAIN_PATTERN) with true in M.
      rewrite M in Hin. destruct Hin. }
  pose proof (match_at_In _ _ _ M) as Hc.
  apply domain_ends_full in Hc as (m' & D' & R & _ & _).
  pose proof R as [A _]. cbn [ahead] in A.
  exists m', (ahead c'). split; [exact A|]. split; [exact D'|].
  apply elem_of_domain. exists m'. split; [|split; [|reflexivity]].
  - rewrite E, A. apply finditer_complete.
    + intros p1 p2 w -> Hne H. eapply domain_no_overrun; eassumption.
    + exists c'. rewrite <- A. split; [exact M|].
      apply reaches_matched. exact R.
  - apply domain_filter_idle, domain_text_shape, D'.
Qed.

Lemma domain_occurrence_reported_witness :
  exists m' post',
    chars "example.com for info" = m' ++ post' /\ domain_text m'
    /\ mkIOC DOMAIN (text_of (lower m')) ∈ validate_iocs "Visit example[.]com for info".
Proof.
  apply (domain_occurrence_reported "Visit example[.]com for info"
           (chars "Visit ") (chars "example.com") (chars " for info"));
    try reflexivity.
  exists [chars "example"], (chars "com").
  split; [discriminate|]. split; [|split; [simpl; lia|split; reflexivity]].
  constructor; [|constructor]. split; [discriminate|reflexivity].
Defined.
